(** * French birth records 2019: the aggregation pipeline of [dashboard.py]

    A shallow embedding of the tabular aggregations that [dashboard.py]
    performs on the INSEE birth file before handing the results to the
    charting layer, together with the properties of the derived tables.

    Conventions of the embedding.
    - A pandas [DataFrame] is the list of its rows, in index order; a
      [Series] is the list of its values.
    - Python and numpy integers are [Z]; a value that pandas may hold either
      as a string or as an integer (the department column) is a [pyval].
    - The columns read from the file are integer columns without missing
      values, as in the INSEE file; only the last-name code may be missing
      ([None]). [read_csv] gives such a column the dtype [int64] when all
      its values fit; the month column, whose values are used as list
      indices, carries that condition ([column_is_int64]).
    - A numpy [float64] is a [float64] below: the three non-finite values are
      kept apart, a finite value is kept exact (53-bit rounding is not
      modelled). The properties of the rates and shares are about the
      formula of a value, its bounds, whether it reaches them, and its
      non-finite cases, which rounding keeps; none is about a sum of
      rounded values.
    - [DataFrame.apply(f, axis=1)] is [f] applied to every row, in order.
      On a frame that has no row, [apply] returns a frame instead of a
      [Series], and assigning it to a column raises [ValueError]: the monthly
      table, built while the module loads, has this case ([assign_apply]).
      The functions of the figures are called by the layout once the module
      has loaded its tables, on a frame that has rows.
    - A Python exception is the [inl] of a [result]. *)

From Stdlib Require Import ZArith QArith Qround Qabs Lia Lqa.
From stdpp Require Import base decidable list strings sorting numbers pretty gmap.

Local Open Scope string_scope.
Local Open Scope Z_scope.

(** ** Python values and exceptions *)

Inductive pyval : Type :=
| PyStr (s : string)
| PyInt (n : Z).

#[global] Instance pyval_eq_dec : EqDecision pyval.
Proof. solve_decision. Defined.

(** [str(v)]: a string is itself, an integer is printed in decimal. *)
Definition str (v : pyval) : string :=
  match v with
  | PyStr s => s
  | PyInt n => pretty n
  end.

Inductive exn : Type :=
| IndexError
| KeyError
| IllegalMonthError
| TypeError
| ValueError.

Definition result (A : Type) : Type := exn + A.

Definition ret {A} (a : A) : result A := inr a.
Definition raise {A} (e : exn) : result A := inl e.
Definition bind {A B} (m : result A) (k : A → result B) : result B :=
  match m with
  | inl e => inl e
  | inr a => k a
  end.

Notation "'let*' x ':=' m 'in' k" := (bind m (λ x, k))
  (at level 10, x name, m at level 200, k at level 200).

(** A list comprehension whose body may raise: the first exception, in
    iteration order, aborts the whole comprehension. *)
Fixpoint comprehension {A B} (f : A → result B) (l : list A) : result (list B) :=
  match l with
  | [] => ret []
  | a :: l' => let* b := f a in let* bs := comprehension f l' in ret (b :: bs)
  end.

(** ** numpy floats *)

(** A [float64] whose finite values are written in [F]: the rationals for
    the quotients of counts, [logarithm] for the logarithm of a count. *)
Inductive float64 (F : Type) : Type :=
| fin (x : F)
| inf (negative : bool)
| nan.

Arguments fin {F} x%_Q.
Arguments inf {F} negative.
Arguments nan {F}.

(** The finite value [ln p], for a positive integer [p]. *)
Inductive logarithm : Type :=
| ln (p : positive).

Definition is_finite {F} (x : float64 F) : bool :=
  match x with
  | fin _ => true
  | inf _ | nan => false
  end.

(** [np.log] on an integer column: [log 0 = -inf], [log] of a negative
    number is [nan] (both with a warning only). *)
Definition np_log (n : Z) : float64 logarithm :=
  match n with
  | Z0 => inf true
  | Zpos p => fin (ln p)
  | Zneg _ => nan
  end.

(** [a / b] on numpy integers (true division): dividing by zero does not
    raise, it gives [nan] for [0 / 0] and a signed infinity otherwise. *)
Definition np_true_divide (a b : Z) : float64 Q :=
  if b =? 0 then
    (if a =? 0 then nan else inf (a <? 0))
  else fin (inject_Z a / inject_Z b).

(** [x * k] for a float [x] and a positive integer constant [k]. *)
Definition np_scale (x : float64 Q) (k : positive) : float64 Q :=
  match x with
  | fin q => fin (q * inject_Z (Zpos k))
  | inf s => inf s
  | nan => nan
  end.

(** ** The raw data frame *)

Record BirthRecord : Type := {
  ANAIS : Z;
  DEPNAIS : pyval;
  MNAIS : Z;
  AGEXACTM : Z;
  AGEXACTP : Z;
  INDNATM : Z;
  INDNATP : Z;
  ORIGINOM : option Z;
  ARECM : Z;
  ARECP : Z;
  AMAR : Z
}.

Definition set_DEPNAIS (d : pyval) (r : BirthRecord) : BirthRecord :=
  {| ANAIS := ANAIS r; DEPNAIS := d; MNAIS := MNAIS r;
     AGEXACTM := AGEXACTM r; AGEXACTP := AGEXACTP r;
     INDNATM := INDNATM r; INDNATP := INDNATP r; ORIGINOM := ORIGINOM r;
     ARECM := ARECM r; ARECP := ARECP r; AMAR := AMAR r |}.

(** [Series.unique()]: the distinct values in order of first appearance. *)
Fixpoint unique {A} `{EqDecision A} (l : list A) : list A :=
  match l with
  | [] => []
  | x :: l' => x :: filter (λ y, y ≠ x) (unique l')
  end.

(** [df[cond].shape[0]] and [cond.sum()]: the number of rows satisfying
    [cond]. *)
Definition count_rows {A} (P : A → Prop) `{∀ x, Decision (P x)} (df : list A) : Z :=
  Z.of_nat (length (filter P df)).

(** [sorted(xs)] on integers. *)
Definition sorted (xs : list Z) : list Z := merge_sort Z.le xs.

(** A Python dict, as the list of its items. *)
Fixpoint dict_get {K V} `{EqDecision K} (d : list (K * V)) (k : K) : option V :=
  match d with
  | [] => None
  | (k', v) :: d' => if decide (k' = k) then Some v else dict_get d' k
  end.

(** [d[k]] raises [KeyError] on a missing key, [d.get(k, default)] does
    not. *)
Definition dict_item {K V} `{EqDecision K} (d : list (K * V)) (k : K) : result V :=
  match dict_get d k with
  | Some v => ret v
  | None => raise KeyError
  end.

Definition dict_get_default {K V} `{EqDecision K} (d : list (K * V)) (k : K) (v : V) : V :=
  default v (dict_get d k).

(** [Series.replace(d)], on one value: a value that is a key of [d] is
    replaced by the dict's entry, any other value is kept. *)
Definition replace {K} `{EqDecision K} (d : list (K * K)) (v : K) : K :=
  default v (dict_get d v).

(** [l[i]] on a Python list: a negative index counts from the end, an index
    out of range raises [IndexError]. *)
Definition list_item {A} (l : list A) (i : Z) : result A :=
  let n := Z.of_nat (length l) in
  let j := if i <? 0 then i + n else i in
  if (0 <=? j) && (j <? n) then
    match l !! Z.to_nat j with
    | Some a => ret a
    | None => raise IndexError
    end
  else raise IndexError.

(** ** [clean_dep] and [clean_and_read_data] *)

Definition clean_dep (dep : pyval) : string :=
  let dep := str dep in
  if decide (String.length dep = 1%nat) then "0" +:+ dep else dep.

(** The rows of [raw_df] are those that [read_csv] returned. *)
Definition clean_and_read_data (raw_df : list BirthRecord) : list BirthRecord :=
  let d := map (λ dep, (dep, PyStr (clean_dep dep))) (unique (map DEPNAIS raw_df)) in
  map (λ r, set_DEPNAIS (replace d (DEPNAIS r)) r) raw_df.

(** ** [df_choropleth] *)

Module Choropleth.
Record row : Type := {
  Department : string;
  Births_abs : Z;
  Births_log : float64 logarithm
}.
End Choropleth.

(** [gdf_index] is [gdf.index], the department codes of the geometry file in
    the file's order. *)
Definition df_choropleth (df : list BirthRecord) (gdf_index : list string)
  : list Choropleth.row :=
  map (λ code,
         let n := count_rows (λ r, DEPNAIS r = PyStr (clean_dep (PyStr code))) df in
         {| Choropleth.Department := code;
            Choropleth.Births_abs := n;
            Choropleth.Births_log := np_log n |})
      gdf_index.

Definition sumZ (l : list Z) : Z := foldr Z.add 0 l.

(** ** [df_barplot] *)

Definition months : list string :=
  ["January"; "February"; "March"; "April"; "May"; "June";
   "July"; "August"; "September"; "October"; "November"; "December"].

(** [calendar.monthrange(year, month)[1]], the number of days of the month. *)
Definition isleap (year : Z) : bool :=
  (year mod 4 =? 0) && (negb (year mod 100 =? 0) || (year mod 400 =? 0)).

Definition mdays : list Z := [0; 31; 28; 31; 30; 31; 30; 31; 31; 30; 31; 30; 31].

Definition February : Z := 2.

Definition monthrange_ndays (year month : Z) : result Z :=
  if negb ((1 <=? month) && (month <=? 12)) then raise IllegalMonthError
  else
    let* d := list_item mdays month in
    ret (d + (if (month =? February) && isleap year then 1 else 0)).

(** [round(x)] on a float: the nearest integer, a tie going to the even
    one. *)
Definition py_round (x : Q) : Z :=
  let f := Qfloor x in
  match Qcompare (x - inject_Z f) (1 # 2) with
  | Lt => f
  | Gt => f + 1
  | Eq => if Z.even f then f else f + 1
  end.

Definition procreation : list (string * string) :=
  [("January", "April 2018");
   ("February", "May 2018");
   ("March", "June 2018");
   ("April", "July 2018");
   ("May", "August 2018");
   ("June", "September 2018");
   ("July", "October 2018");
   ("August", "November 2018");
   ("September", "December 2018");
   ("October", "January 2019");
   ("November", "February 2019");
   ("December", "March 2019")].

Module Barplot.
Record row : Type := {
  Month_ind : Z;
  Month_birth : string;
  Births_abs : Z;
  Births_norm : Z;
  Month_procreation : string;
  Number : Z
}.
End Barplot.

(** [DataFrame.sort_values(key)] on rows whose key is an integer. *)
Definition by_key {A} (key : A → Z) : relation A := λ a b, key a ≤ key b.

#[global] Instance by_key_dec {A} (key : A → Z) (a b : A) : Decision (by_key key a b).
Proof. unfold by_key. apply _. Defined.

Definition sort_values {A} (key : A → Z) (rows : list A) : list A :=
  merge_sort (by_key key) rows.

(** The dtype of a column of integers read by [read_csv]: [int64] when
    every value fits in 64 bits, signed. *)
Definition int64 (n : Z) : bool := (- 2 ^ 63 <=? n) && (n <? 2 ^ 63).

Definition column_is_int64 (column : list Z) : bool := forallb int64 column.

(** [months[month - 1]] for a value [month] of the month column. A value of
    an [int64] column is a list index. The values of a column that did not
    fit [int64] are unsigned integers or strings: [month - 1] is a float,
    which is no list index, or is not defined at all, a [TypeError] either
    way. *)
Definition months_item (is_int64 : bool) (month : Z) : result string :=
  if is_int64 then list_item months (month - 1) else raise TypeError.

(** The frame before the derived columns are added: one row per distinct
    month of the data, sorted by month. *)
Definition df_barplot_base (df : list BirthRecord) : result (list (Z * string * Z)) :=
  let column := map MNAIS df in
  let* rows :=
    comprehension
      (λ month,
         let* name := months_item (column_is_int64 column) month in
         ret (month, name, count_rows (λ r, MNAIS r = month) df))
      (unique column) in
  ret (sort_values (λ row, row.1.1) rows).

Definition births_norm (ser : Z * string * Z) : result Z :=
  let* ndays := monthrange_ndays 2019 ser.1.1 in
  ret (py_round (inject_Z ser.2 / inject_Z ndays * 30)).

(** [frame[column] = frame.apply(f, axis=1)]: [f] on every row, in order,
    the first exception aborting; on a frame without rows [apply] returns
    an empty frame with the columns of [frame], not a [Series], and the
    assignment of these columns to one column raises [ValueError]. *)
Definition assign_apply {A B} (f : A → result B) (frame : list A) : result (list B) :=
  match frame with
  | [] => raise ValueError
  | _ :: _ => comprehension f frame
  end.

Definition df_barplot (df : list BirthRecord) : result (list Barplot.row) :=
  let* base := df_barplot_base df in
  let* norm := assign_apply births_norm base in
  ret (zip_with
         (λ ser n,
            {| Barplot.Month_ind := ser.1.1;
               Barplot.Month_birth := ser.1.2;
               Barplot.Births_abs := ser.2;
               Barplot.Births_norm := n;
               Barplot.Month_procreation := replace procreation ser.1.2;
               Barplot.Number := n |})
         base norm).

(** ** [last_name_pie] *)

Definition ind_to_origine_nom : list (Z * string) :=
  [(1, "Father");
   (2, "Mother");
   (3, "Father - Mother");
   (4, "Mother - Father");
   (5, "Other")].

Definition ind_to_nat : list (Z * string) :=
  [(1, "French");
   (2, "Foreign")].

(** The global frame once [last_name_pie] has added its column. *)
Record LabelledRecord : Type := {
  record :> BirthRecord;
  Last_name_choice : string
}.

(** The body of the [apply]: a missing code (NaN) is no key of the dict. *)
Definition last_name_choice (ser : BirthRecord) : string :=
  match ORIGINOM ser with
  | Some code => dict_get_default ind_to_origine_nom code "Father"
  | None => "Father"
  end.

Definition add_last_name_choice (df : list BirthRecord) : list LabelledRecord :=
  map (λ ser, {| record := ser; Last_name_choice := last_name_choice ser |}) df.

(** The key of [groupby(["INDNATP", "INDNATM", "Last name choice"])] and
    the order in which pandas lists the groups. *)
Definition group_key : Type := Z * Z * string.

Definition key_of (r : LabelledRecord) : group_key :=
  (INDNATP r, INDNATM r, Last_name_choice r).

Definition key_compare (a b : group_key) : comparison :=
  match a.1.1 ?= b.1.1 with
  | Eq =>
      match a.1.2 ?= b.1.2 with
      | Eq => String.compare a.2 b.2
      | c => c
      end
  | c => c
  end.

Definition key_le : relation group_key := λ a b, key_compare a b ≠ Gt.

#[global] Instance key_le_dec (a b : group_key) : Decision (key_le a b).
Proof. unfold key_le. apply _. Defined.

(** [groupby(...).count()["ANAIS"].reset_index()]: one row per key present
    in the frame, in key order, with the number of rows of the group (the
    year column has a value in every row). *)
Definition groupby_count (df : list LabelledRecord) : list (group_key * Z) :=
  map (λ k,
         let group := filter (λ r, key_of r = k) df in
         (k, Z.of_nat (length (map (λ r : LabelledRecord, ANAIS r) group))))
      (merge_sort key_le (unique (map key_of df))).

Module Sunburst.
Record row : Type := {
  Births : Z;
  Parents_nationality : string;
  Last_name_choice : string
}.
End Sunburst.

Definition sunburst_row (ser : group_key * Z) : result Sunburst.row :=
  let* father := dict_item ind_to_nat ser.1.1.1 in
  let* mother := dict_item ind_to_nat ser.1.1.2 in
  ret {| Sunburst.Births := ser.2;
         Sunburst.Parents_nationality := father +:+ "/" +:+ mother;
         Sunburst.Last_name_choice := ser.1.2 |}.

(** [last_name_pie] changes the global frame first (the new column stays
    whatever happens next), then builds the rows of the figure. *)
Definition last_name_pie (df : list BirthRecord)
  : list LabelledRecord * result (list Sunburst.row) :=
  let df' := add_last_name_choice df in
  let groups := groupby_count df' in
  (df', comprehension sunburst_row groups).

(** ** [last_name_line] *)

Definition last_name_line (df : list LabelledRecord) : list (Z * string * float64 Q) :=
  flat_map
    (λ age,
       let sub_df := filter (λ r : LabelledRecord, AGEXACTP r = age ∨ AGEXACTM r = age) df in
       map (λ name_choice,
              (age, name_choice,
               np_scale
                 (np_true_divide
                    (count_rows (λ r, Last_name_choice r = name_choice) sub_df)
                    (Z.of_nat (length sub_df)))
                 100))
           (unique (map Last_name_choice df)))
    (sorted (unique (map (λ r : LabelledRecord, AGEXACTP r) df))).

(** ** [recognition] *)

Definition recognition (df : list BirthRecord) : list (string * Z * float64 Q) :=
  flat_map
    (λ age,
       [("Mother", age,
         np_scale
           (np_true_divide
              (count_rows (λ r, AGEXACTM r = age ∧ (ARECM r ≠ 0 ∨ AMAR r ≠ 0)) df)
              (count_rows (λ r, AGEXACTM r = age) df))
           100);
        ("Father", age,
         np_scale
           (np_true_divide
              (count_rows (λ r, AGEXACTP r = age ∧ (ARECP r ≠ 0 ∨ AMAR r ≠ 0)) df)
              (count_rows (λ r, AGEXACTP r = age) df))
           100)])
    (sorted (unique (map AGEXACTP df))).

(** ** [age_heatmap] *)

(** [sorted(xs, reverse=True)] on integers. *)
Definition sorted_reverse (xs : list Z) : list Z := merge_sort (flip Z.le) xs.

(** A frame of integers with integer labels: the labels of its rows, the
    labels of its columns, and its columns as Series (a Series maps the
    labels of the rows to values). *)
Module Heatmap.
Record frame : Type := {
  index : list Z;
  columns : list Z;
  data : gmap Z (gmap Z Z)
}.
End Heatmap.

(** [pd.DataFrame(index=..., columns=...).fillna(0)]: every cell is 0. *)
Definition zeros (index columns : list Z) : Heatmap.frame :=
  {| Heatmap.index := index;
     Heatmap.columns := columns;
     Heatmap.data :=
       gset_to_gmap (gset_to_gmap 0 (list_to_set index)) (list_to_set columns) |}.

(** [fr[col][idx] = value]: [fr[col]] raises [KeyError] when the frame has no
    such column; the assignment then writes through the column Series (a
    label that the Series lacks would be added to it). *)
Definition set_cell (fr : Heatmap.frame) (col idx value : Z) : result Heatmap.frame :=
  match Heatmap.data fr !! col with
  | Some ser =>
      ret {| Heatmap.index := Heatmap.index fr;
             Heatmap.columns := Heatmap.columns fr;
             Heatmap.data := <[col := <[idx := value]> ser]> (Heatmap.data fr) |}
  | None => raise KeyError
  end.

(** [fr[col][idx]], and [fr.values], row by row. *)
Definition cell (fr : Heatmap.frame) (col idx : Z) : option Z :=
  Heatmap.data fr !! col ≫= λ ser, ser !! idx.

Definition values (fr : Heatmap.frame) : option (list (list Z)) :=
  mapM (λ idx, mapM (λ col, cell fr col idx) (Heatmap.columns fr)) (Heatmap.index fr).

(** A [for] loop that updates a state and may raise. *)
Fixpoint for_each {A S} (body : S → A → result S) (s : S) (l : list A) : result S :=
  match l with
  | [] => ret s
  | a :: l' => let* s' := body s a in for_each body s' l'
  end.

(** [groupby(["AGEXACTP", "AGEXACTM"])["ANAIS"].count().reset_index()]: one
    row per pair of ages present in the frame, in the order of the pairs. *)
Definition age_key (r : BirthRecord) : Z * Z := (AGEXACTP r, AGEXACTM r).

Definition age_key_le : relation (Z * Z) :=
  λ a b, a.1 < b.1 ∨ (a.1 = b.1 ∧ a.2 ≤ b.2).

#[global] Instance age_key_le_dec (a b : Z * Z) : Decision (age_key_le a b).
Proof. unfold age_key_le. apply _. Defined.

Definition groupby_ages (df : list BirthRecord) : list (Z * Z * Z) :=
  map (λ k,
         let group := filter (λ r, age_key r = k) df in
         (k, Z.of_nat (length (map ANAIS group))))
      (merge_sort age_key_le (unique (map age_key df))).

(** The frame that [age_heatmap] draws (with [px.imshow], the columns along
    x and the index along y). *)
Definition age_heatmap (df : list BirthRecord) : result Heatmap.frame :=
  let df_heatmapage :=
    zeros (sorted_reverse (unique (map AGEXACTM df)))
          (sorted (unique (map AGEXACTP df))) in
  for_each (λ fr ser, set_cell fr ser.1.1 ser.1.2 ser.2)
           df_heatmapage (groupby_ages df).

(** ** The callbacks *)

(** A column of a frame, as plotly reads it by its name. *)
Inductive Series : Type :=
| StrSeries (l : list string)
| IntSeries (l : list Z)
| FloatSeries (l : list (float64 logarithm)).

Definition choropleth_column (tbl : list Choropleth.row) (name : string) : option Series :=
  if decide (name = "Department") then Some (StrSeries (map Choropleth.Department tbl))
  else if decide (name = "Births (abs)") then Some (IntSeries (map Choropleth.Births_abs tbl))
  else if decide (name = "Births (log)") then Some (FloatSeries (map Choropleth.Births_log tbl))
  else None.

Definition barplot_column (tbl : list Barplot.row) (name : string) : option Series :=
  if decide (name = "Month_ind") then Some (IntSeries (map Barplot.Month_ind tbl))
  else if decide (name = "Month (birth)") then Some (StrSeries (map Barplot.Month_birth tbl))
  else if decide (name = "Births (abs)") then Some (IntSeries (map Barplot.Births_abs tbl))
  else if decide (name = "Births (norm)") then Some (IntSeries (map Barplot.Births_norm tbl))
  else if decide (name = "Month (procreation)") then
    Some (StrSeries (map Barplot.Month_procreation tbl))
  else if decide (name = "Number") then Some (IntSeries (map Barplot.Number tbl))
  else None.

(** What [update_map] hands to [px.choropleth_mapbox]: the frame and the
    names of the columns to read. *)
Module MapFigure.
Record t : Type := {
  data_frame : list Choropleth.row;
  locations : string;
  color : string
}.
End MapFigure.

Definition update_map (df_choropleth : list Choropleth.row) (scale : string)
  : result MapFigure.t :=
  let birth_var :=
    [("Absolute", "Births (abs)");
     ("Logarithmic", "Births (log)")] in
  let* color := dict_item birth_var scale in
  ret {| MapFigure.data_frame := df_choropleth;
         MapFigure.locations := "Department";
         MapFigure.color := color |}.

(** What [update_barplot] hands to [px.bar]. *)
Module BarFigure.
Record t : Type := {
  data_frame : list Barplot.row;
  x : string;
  y : string;
  title : string
}.
End BarFigure.

Definition update_barplot (df_barplot : list Barplot.row) (bars data_type : string)
  : result BarFigure.t :=
  let birth_var :=
    [("Absolute", "Births (abs)");
     ("Normalized", "Births (norm)")] in
  let type_var :=
    [("Births", "Month (birth)");
     ("Procreations", "Month (procreation)")] in
  let* x := dict_item type_var data_type in
  let* y := dict_item birth_var bars in
  ret {| BarFigure.data_frame := df_barplot;
         BarFigure.x := x;
         BarFigure.y := y;
         BarFigure.title := data_type +:+ " per month" |}.

(** ** The module as a whole *)

(** What the module holds once it is loaded: the frame, the two tables and
    the four figures of the layout, built in the order of the file. *)
Module Dashboard.
Record t : Type := {
  df : list LabelledRecord;
  df_choropleth : list Choropleth.row;
  df_barplot : list Barplot.row;
  heatmap : Heatmap.frame;
  pie : list Sunburst.row;
  line : list (Z * string * float64 Q);
  recognition_rate : list (string * Z * float64 Q)
}.
End Dashboard.

Definition dashboard (raw_df : list BirthRecord) (gdf_index : list string)
  : result Dashboard.t :=
  let df := clean_and_read_data raw_df in
  let choropleth := df_choropleth df gdf_index in
  let* barplot := df_barplot df in
  let* heatmap := age_heatmap df in
  let labelled := (last_name_pie df).1 in
  let* pie := (last_name_pie df).2 in
  ret {| Dashboard.df := labelled;
         Dashboard.df_choropleth := choropleth;
         Dashboard.df_barplot := barplot;
         Dashboard.heatmap := heatmap;
         Dashboard.pie := pie;
         Dashboard.line := last_name_line labelled;
         Dashboard.recognition_rate := recognition (map record labelled) |}.

(** * Definitions used to state the properties *)

(** The row of a department code, in terms of the rows that were read. *)
Definition choropleth_row (raw_df : list BirthRecord) (code : string) : Choropleth.row :=
  let n := count_rows (λ r, clean_dep (DEPNAIS r) = clean_dep (PyStr code)) raw_df in
  {| Choropleth.Department := code;
     Choropleth.Births_abs := n;
     Choropleth.Births_log := np_log n |}.

(** The pairs of birth month and procreation label, as the specification
    lists them. *)
Definition procreation_pairs : list (Z * string) :=
  [(1, "April 2018"); (2, "May 2018"); (3, "June 2018"); (4, "July 2018");
   (5, "August 2018"); (6, "September 2018"); (7, "October 2018");
   (8, "November 2018"); (9, "December 2018"); (10, "January 2019");
   (11, "February 2019"); (12, "March 2019")].

(** The label that the table gives to a birth month: the name of the month,
    then the replacement. *)
Definition procreation_label (month : Z) : result string :=
  let* name := list_item months (month - 1) in
  ret (replace procreation name).

(** The age column that the rows of a parent are computed from. *)
Definition parent_age (parent : string) : BirthRecord → Z :=
  if decide (parent = "Mother") then AGEXACTM else AGEXACTP.

(** The subset of the frame that an age selects: either parent has that
    age. *)
Definition sub_df (df : list LabelledRecord) (age : Z) : list LabelledRecord :=
  filter (λ r : LabelledRecord, AGEXACTP r = age ∨ AGEXACTM r = age) df.

Definition usage (df : list LabelledRecord) (age : Z) (name_choice : string) : float64 Q :=
  np_scale
    (np_true_divide
       (count_rows (λ r, Last_name_choice r = name_choice) (sub_df df age))
       (Z.of_nat (length (sub_df df age))))
    100.

(** The name of a month and the row of a month in the monthly table, for
    a month of the calendar. *)
Definition month_name (month : Z) : string :=
  match list_item months (month - 1) with
  | inr name => name
  | inl _ => ""
  end.

Definition barplot_row (df : list BirthRecord) (month : Z) : Barplot.row :=
  let births := count_rows (λ r, MNAIS r = month) df in
  let norm :=
    match births_norm (month, month_name month, births) with
    | inr n => n
    | inl _ => 0
    end in
  {| Barplot.Month_ind := month;
     Barplot.Month_birth := month_name month;
     Barplot.Births_abs := births;
     Barplot.Births_norm := norm;
     Barplot.Month_procreation := replace procreation (month_name month);
     Barplot.Number := norm |}.

(** What counts as recognised in the row of a parent: a recognition year of
    that parent, or a marriage year, other than 0. *)
Definition recognised (parent : string) (r : BirthRecord) : Prop :=
  if decide (parent = "Mother") then ARECM r ≠ 0 ∨ AMAR r ≠ 0
  else ARECP r ≠ 0 ∨ AMAR r ≠ 0.

#[global] Instance recognised_dec (parent : string) (r : BirthRecord) :
  Decision (recognised parent r).
Proof. unfold recognised. destruct (decide (parent = "Mother")); apply _. Defined.

(** ** Sample frames *)

Definition birth (dep : pyval) (month father mother : Z) (nat_father nat_mother : Z)
    (origin : option Z) (rec_mother rec_father married : Z) : BirthRecord :=
  {| ANAIS := 2019; DEPNAIS := dep; MNAIS := month;
     AGEXACTM := mother; AGEXACTP := father;
     INDNATM := nat_mother; INDNATP := nat_father; ORIGINOM := origin;
     ARECM := rec_mother; ARECP := rec_father; AMAR := married |}.

(** Three births of January in department 1, read as the integer 1 or the
    string "1": fathers of 30, 30 and 31, mothers of 28, 29 and 28, the
    third with a foreign father and an unlisted last-name code. *)
Definition three_births : list BirthRecord :=
  [birth (PyInt 1) 1 30 28 1 1 (Some 1) 0 2018 2015;
   birth (PyStr "1") 1 30 29 1 2 (Some 1) 2018 0 0;
   birth (PyInt 1) 1 31 28 2 1 (Some 9) 0 0 0].

(** Seven births of February and one of July, in Paris and La Réunion. *)
Definition winter_births : list BirthRecord :=
  birth (PyStr "974") 7 40 35 1 1 (Some 2) 0 0 2010
  :: replicate 7 (birth (PyInt 75) 2 33 31 1 1 None 0 0 2016).

(** Two births on either side of the year of the procreation labels:
    September and October. *)
Definition autumn_births : list BirthRecord :=
  [birth (PyStr "2A") 10 29 27 1 1 (Some 1) 0 0 2017;
   birth (PyInt 69) 9 35 36 1 2 (Some 3) 2019 2019 0].

(** A record whose father's flag is a code that the dict does not list. *)
Definition unlisted_flag : list BirthRecord :=
  [birth (PyStr "13") 5 27 26 3 1 (Some 1) 0 0 0].

(** The monthly table of [winter_births], and the frame of the heat map and
    the rows of the sunburst of [three_births]. *)
Definition winter_table : list Barplot.row :=
  [barplot_row winter_births 2; barplot_row winter_births 7].

Definition heatmap_of (df : list BirthRecord) : Heatmap.frame :=
  match age_heatmap df with
  | inr fr => fr
  | inl _ => zeros [] []
  end.

Definition three_births_pie : list Sunburst.row :=
  [{| Sunburst.Births := 1; Sunburst.Parents_nationality := "French/French";
      Sunburst.Last_name_choice := "Father" |};
   {| Sunburst.Births := 1; Sunburst.Parents_nationality := "French/Foreign";
      Sunburst.Last_name_choice := "Father" |};
   {| Sunburst.Births := 1; Sunburst.Parents_nationality := "Foreign/French";
      Sunburst.Last_name_choice := "Father" |}].

(** * Properties *)

(** ** Generic facts about the data-frame operations *)

Section frames.
Context {A : Type}.

Lemma elem_of_unique `{EqDecision A} (l : list A) (x : A) :
  x ∈ unique l ↔ x ∈ l.
Proof.
  induction l as [|a l IH]; simpl; [done|].
  rewrite !elem_of_cons, list_elem_of_filter, IH.
  destruct (decide (x = a)); tauto.
Qed.

Lemma NoDup_unique `{EqDecision A} (l : list A) : NoDup (unique l).
Proof.
  induction l as [|a l IH]; simpl; [constructor|].
  apply NoDup_cons. split.
  - rewrite list_elem_of_filter. tauto.
  - by apply NoDup_filter.
Qed.

Lemma count_rows_nonneg (P : A → Prop) `{∀ x, Decision (P x)} (l : list A) :
  0 ≤ count_rows P l ≤ Z.of_nat (length l).
Proof. unfold count_rows. pose proof (length_filter P l). lia. Qed.

Lemma count_rows_cons (P : A → Prop) `{∀ x, Decision (P x)} (a : A) (l : list A) :
  count_rows P (a :: l) = (if decide (P a) then 1 else 0) + count_rows P l.
Proof.
  unfold count_rows. rewrite filter_cons.
  destruct (decide (P a)); simpl length; lia.
Qed.

Lemma count_rows_ext (P Q : A → Prop) `{∀ x, Decision (P x)} `{∀ x, Decision (Q x)}
    (l : list A) :
  (∀ x, x ∈ l → P x ↔ Q x) → count_rows P l = count_rows Q l.
Proof.
  induction l as [|a l IH]; intros HPQ; [done|].
  rewrite !count_rows_cons, IH by (intros x Hx; apply HPQ; by right).
  pose proof (HPQ a (list_elem_of_here a l)).
  destruct (decide (P a)), (decide (Q a)); tauto.
Qed.

Lemma count_rows_all (P : A → Prop) `{∀ x, Decision (P x)} (l : list A) :
  count_rows P l = Z.of_nat (length l) ↔ ∀ x, x ∈ l → P x.
Proof.
  induction l as [|a l IH]; [split; [intros _ x Hx; inversion Hx | done]|].
  rewrite count_rows_cons. pose proof (count_rows_nonneg P l) as Hb.
  simpl length. split.
  - intros Hc x Hx. destruct (decide (P a)); [|lia].
    apply elem_of_cons in Hx as [->|Hx]; [done|]. apply IH; [lia|done].
  - intros Hall. rewrite decide_True by (apply Hall; by left).
    apply proj2 in IH. rewrite IH; [lia|]. intros x Hx. apply Hall. by right.
Qed.

Lemma count_rows_zero (P : A → Prop) `{∀ x, Decision (P x)} (l : list A) :
  count_rows P l = 0 ↔ ∀ x, x ∈ l → ¬ P x.
Proof.
  induction l as [|a l IH]; [split; [intros _ x Hx; inversion Hx | done]|].
  rewrite count_rows_cons. pose proof (count_rows_nonneg P l) as Hb.
  split.
  - intros Hc x Hx. destruct (decide (P a)); [lia|].
    apply elem_of_cons in Hx as [->|Hx]; [done|]. apply IH; [lia|done].
  - intros Hall. rewrite decide_False by (apply Hall; by left).
    apply proj2 in IH. rewrite IH; [lia|]. intros x Hx. apply Hall. by right.
Qed.

Lemma filter_none (P : A → Prop) `{∀ x, Decision (P x)} (l : list A) :
  (∀ x, x ∈ l → ¬ P x) → filter P l = [].
Proof.
  intros Hl. apply length_zero_iff_nil.
  apply (proj2 (count_rows_zero P l)) in Hl. unfold count_rows in Hl. lia.
Qed.

Lemma count_rows_or (P Q : A → Prop) `{∀ x, Decision (P x)} `{∀ x, Decision (Q x)}
    (l : list A) :
  (∀ x, P x → Q x → False) →
  count_rows (λ x, P x ∨ Q x) l = count_rows P l + count_rows Q l.
Proof.
  intros Hdisj. induction l as [|a l IH]; [done|].
  rewrite !count_rows_cons, IH.
  specialize (Hdisj a).
  destruct (decide (P a)), (decide (Q a)), (decide (P a ∨ Q a)); try tauto; lia.
Qed.

(** Summing the sizes of the groups of a list of distinct keys counts the
    rows whose key is listed. *)
Lemma sum_counts_NoDup {K} `{EqDecision K} (g : A → K) (ks : list K) (l : list A) :
  NoDup ks →
  sumZ (map (λ k, count_rows (λ r, g r = k) l) ks)
  = count_rows (λ r, g r ∈ ks) l.
Proof.
  induction 1 as [|k ks Hk _ IH]; simpl.
  - symmetry. apply count_rows_zero. intros x _ Hx. inversion Hx.
  - rewrite IH, <-count_rows_or by (intros x <-; done).
    apply count_rows_ext. intros x _. rewrite elem_of_cons. naive_solver.
Qed.

End frames.

Lemma count_rows_fmap {A B} (f : B → A) (P : A → Prop) `{∀ x, Decision (P x)}
    (l : list B) :
  count_rows P (f <$> l) = count_rows (λ b, P (f b)) l.
Proof.
  induction l as [|b l IH]; [done|].
  rewrite fmap_cons, count_rows_cons, IH.
  by rewrite (count_rows_cons (λ b, P (f b))).
Qed.

(** Stdlib's [map] and stdpp's [fmap] on lists are the same function; the
    lemmas of stdpp are stated with the latter. *)
Ltac to_fmap :=
  repeat match goal with
    | |- context [map ?f ?l] => change (map f l) with (f <$> l)
    | H : context [map ?f ?l] |- _ => change (map f l) with (f <$> l) in H
    end.

(** Membership in a list that is written out. *)
Ltac solve_elem_of :=
  repeat first [apply list_elem_of_here | apply list_elem_of_further].

Lemma elem_of_flat_map {A B} (f : A → list B) (l : list A) (y : B) :
  y ∈ flat_map f l ↔ ∃ x, x ∈ l ∧ y ∈ f x.
Proof.
  rewrite list_elem_of_In, in_flat_map.
  by setoid_rewrite list_elem_of_In.
Qed.

Lemma dict_get_comprehension {K V} `{EqDecision K} (f : K → V) (ks : list K) (k : K) :
  k ∈ ks → dict_get (map (λ x, (x, f x)) ks) k = Some (f k).
Proof.
  induction ks as [|k' ks IH]; intros Hk; [inversion Hk|].
  simpl. destruct (decide (k' = k)) as [->|Hne]; [done|].
  apply IH. apply elem_of_cons in Hk as [->|Hk]; done.
Qed.

(** ** [clean_dep] and the cleaned frame *)

(** After the cleaning, the department column holds the padded code of every
    row, as a string; nothing else changes. *)
Lemma clean_and_read_data_rows (raw_df : list BirthRecord) :
  clean_and_read_data raw_df
  = map (λ r, set_DEPNAIS (PyStr (clean_dep (DEPNAIS r))) r) raw_df.
Proof.
  unfold clean_and_read_data. apply map_ext_in. intros r Hr.
  unfold replace.
  rewrite (dict_get_comprehension (λ dep, PyStr (clean_dep dep))); [done|].
  apply elem_of_unique, list_elem_of_In, in_map, Hr.
Qed.

(** C9. On a raw code whose string form has one character, [clean_dep]
    returns the two-character string made of "0" and that character; on a raw
    code whose string form has two characters or more it returns the string
    form unchanged. *)
Theorem clean_dep_pads (dep : pyval) :
  (String.length (str dep) = 1%nat →
     clean_dep dep = "0" +:+ str dep ∧ String.length (clean_dep dep) = 2%nat) ∧
  ((2 ≤ String.length (str dep))%nat → clean_dep dep = str dep).
Proof.
  unfold clean_dep. split.
  - intros Hlen. rewrite decide_True by done. split; [done|].
    change (S (String.length (str dep)) = 2%nat). by rewrite Hlen.
  - intros Hlen. rewrite decide_False by lia. done.
Qed.

Lemma clean_dep_pads_witness :
  (clean_dep (PyInt 7) = "07" ∧ String.length (clean_dep (PyInt 7)) = 2%nat) ∧
  clean_dep (PyStr "2A") = "2A".
Proof.
  split.
  - apply (proj1 (clean_dep_pads (PyInt 7))). reflexivity.
  - apply (proj2 (clean_dep_pads (PyStr "2A"))). simpl. lia.
Defined.

(** Cleaning a cleaned code changes nothing: the replacement of the
    department column gives the same frame whether pandas applies the dict
    at once or entry after entry. *)
Lemma clean_dep_idempotent (dep : pyval) :
  clean_dep (PyStr (clean_dep dep)) = clean_dep dep.
Proof.
  unfold clean_dep. simpl.
  destruct (decide (String.length (str dep) = 1%nat)) as [Hlen|Hlen].
  - change (String.length ("0" +:+ str dep)) with (S (String.length (str dep))).
    rewrite Hlen. done.
  - by rewrite decide_False.
Qed.

Lemma clean_dep_code (code : string) :
  String.length code ≠ 1%nat → clean_dep (PyStr code) = code.
Proof. intros Hlen. unfold clean_dep. simpl. by rewrite decide_False. Qed.

(** ** The choropleth table *)

(** The table in terms of the rows that were read: the count of a code is
    the number of rows whose padded code is the padded form of the code. *)
Lemma df_choropleth_rows (raw_df : list BirthRecord) (gdf_index : list string) :
  df_choropleth (clean_and_read_data raw_df) gdf_index
  = map (choropleth_row raw_df) gdf_index.
Proof.
  unfold df_choropleth. apply map_ext. intros code. unfold choropleth_row.
  rewrite clean_and_read_data_rows. to_fmap.
  rewrite count_rows_fmap.
  rewrite (count_rows_ext _ (λ r, clean_dep (DEPNAIS r) = clean_dep (PyStr code))).
  - done.
  - intros r _. simpl. split; [by intros [= ->] | by intros ->].
Qed.

(** The logarithm of a count is finite unless the count is zero. *)
Lemma np_log_finite (n : Z) :
  0 ≤ n → is_finite (np_log n) = false ↔ n = 0.
Proof. intros Hn. destruct n as [|p|p]; simpl; [done | split; done | lia]. Qed.

Lemma filter_key_singleton {K B} `{EqDecision K} (f : K → B) (key : B → K)
    (ks : list K) (c : K) :
  (∀ k, key (f k) = k) → NoDup ks → c ∈ ks →
  filter (λ b, key b = c) (map f ks) = [f c].
Proof.
  intros Hkey. induction 1 as [|k ks Hk Hnd IH]; intros Hc; [inversion Hc|].
  simpl. rewrite filter_cons, Hkey.
  destruct (decide (k = c)) as [->|Hne].
  - f_equal. apply filter_none. intros b Hb.
    to_fmap. apply list_elem_of_fmap in Hb as (k' & -> & Hk').
    rewrite Hkey. by intros ->.
  - apply IH. apply elem_of_cons in Hc as [->|Hc]; done.
Qed.

(** C1, as the code has it. For a geometry index of distinct codes, none of
    them one character long: every code of the index has exactly one row;
    its [Births (abs)] is the number of records whose padded department code
    is that code; a code that no record matches keeps its row, with count 0
    and the non-finite logarithm [-inf] (the logarithm of any other row is
    finite); and the counts add up to the number
    of records whose padded code is in the index, which is the number of all
    records exactly when every record's padded code is in the index. *)
Theorem df_choropleth_counts (raw_df : list BirthRecord) (gdf_index : list string) :
  NoDup gdf_index →
  (∀ c, c ∈ gdf_index → String.length c ≠ 1%nat) →
  let tbl := df_choropleth (clean_and_read_data raw_df) gdf_index in
  (∀ c, c ∈ gdf_index →
     ∃ row,
       filter (λ row, Choropleth.Department row = c) tbl = [row] ∧
       Choropleth.Births_abs row
       = count_rows (λ r, clean_dep (DEPNAIS r) = c) raw_df ∧
       (Choropleth.Births_abs row = 0 → Choropleth.Births_log row = inf true) ∧
       (is_finite (Choropleth.Births_log row) = false ↔
        Choropleth.Births_abs row = 0)) ∧
  sumZ (map Choropleth.Births_abs tbl)
  = count_rows (λ r, clean_dep (DEPNAIS r) ∈ gdf_index) raw_df ∧
  (sumZ (map Choropleth.Births_abs tbl) = Z.of_nat (length raw_df) ↔
   ∀ r, r ∈ raw_df → clean_dep (DEPNAIS r) ∈ gdf_index).
Proof.
  intros Hnd Hlen tbl. subst tbl. rewrite df_choropleth_rows.
  assert (Hsum : sumZ (map Choropleth.Births_abs (map (choropleth_row raw_df) gdf_index))
                 = count_rows (λ r, clean_dep (DEPNAIS r) ∈ gdf_index) raw_df).
  { rewrite <-(sum_counts_NoDup (λ r, clean_dep (DEPNAIS r))) by done.
    rewrite map_map. f_equal. apply map_ext_in. intros c Hc. simpl.
    rewrite clean_dep_code; [done|]. by apply Hlen, list_elem_of_In. }
  split; [|split; [exact Hsum|]].
  - intros c Hc. exists (choropleth_row raw_df c). split; [|split; [|split]].
    + by apply (filter_key_singleton (choropleth_row raw_df) Choropleth.Department).
    + simpl. by rewrite clean_dep_code by by apply Hlen.
    + simpl. by intros ->.
    + apply np_log_finite, count_rows_nonneg.
  - rewrite Hsum. apply count_rows_all.
Qed.

(** ** Comprehensions that may raise *)

Lemma comprehension_inr {A B} (f : A → result B) (l : list A) (bs : list B) :
  comprehension f l = inr bs ↔ Forall2 (λ a b, f a = inr b) l bs.
Proof.
  revert bs. induction l as [|a l IH]; intros bs; simpl.
  - split; [intros [= <-]; constructor | by inversion 1].
  - destruct (f a) as [e|b] eqn:Hfa; simpl.
    + split; [done | inversion 1; congruence].
    + destruct (comprehension f l) as [e|bs'] eqn:Hl; simpl.
      * split; [done|]. inversion 1 as [|? b' ? bs'' _ Hbs]; subst.
        by apply IH in Hbs.
      * split.
        -- intros [= <-]. constructor; [done | by apply IH].
        -- inversion 1 as [|? b' ? bs'' Hb Hbs]; subst.
           apply IH in Hbs. unfold ret. congruence.
Qed.

Lemma comprehension_total {A B} (f : A → result B) (l : list A) :
  (∀ a, a ∈ l → ∃ b, f a = inr b) → ∃ bs, comprehension f l = inr bs.
Proof.
  induction l as [|a l IH]; intros Hl; simpl; [by eexists|].
  destruct (Hl a) as [b ->]; [by left|].
  destruct IH as [bs ->]; [intros; apply Hl; by right|].
  by eexists.
Qed.

Lemma comprehension_inl {A B} (f : A → result B) (l : list A) (e : exn) :
  comprehension f l = inl e → ∃ a, a ∈ l ∧ f a = inl e.
Proof.
  induction l as [|a l IH]; simpl; [done|].
  destruct (f a) as [e'|b] eqn:Hfa; simpl.
  - intros [= ->]. exists a. split; [by left | done].
  - destruct (comprehension f l) as [e'|bs]; simpl; [|done].
    intros [= ->]. destruct IH as (a' & Ha' & Hfa'); [done|].
    exists a'. split; [by right | done].
Qed.

Lemma comprehension_raises {A B} (f : A → result B) (l : list A) (a : A) (e : exn) :
  a ∈ l → f a = inl e → ∃ e', comprehension f l = inl e'.
Proof.
  intros Ha Hfa. destruct (comprehension f l) as [e'|bs] eqn:Hl; [by eexists|].
  apply comprehension_inr in Hl.
  apply list_elem_of_lookup in Ha as [i Hi].
  destruct (Forall2_lookup_l _ _ _ _ _ Hl Hi) as (b & _ & Hb). congruence.
Qed.

(** ** The monthly table *)

#[global] Instance by_key_total {A} (key : A → Z) : Total (by_key key).
Proof. intros a b. unfold by_key. lia. Qed.

#[global] Instance by_key_trans {A} (key : A → Z) : Transitive (by_key key).
Proof. intros a b c. unfold by_key. lia. Qed.

Lemma sort_values_Permutation {A} (key : A → Z) (rows : list A) :
  sort_values key rows ≡ₚ rows.
Proof. apply merge_sort_Permutation. Qed.

Lemma sort_values_Sorted {A} (key : A → Z) (rows : list A) :
  Sorted Z.le (map key (sort_values key rows)).
Proof.
  to_fmap. apply (Sorted_fmap key (by_key key)); [done|].
  apply (Sorted_merge_sort (by_key key)).
Qed.

(** A sorted list of distinct integers is strictly increasing. *)
Lemma Sorted_NoDup_lt (l : list Z) :
  Sorted Z.le l → NoDup l → StronglySorted Z.lt l.
Proof.
  intros Hs Hnd. apply (Sorted_StronglySorted Z.le) in Hs.
  induction Hs as [|x l Hl IH Hx]; [constructor|].
  apply NoDup_cons in Hnd as [Hxl Hnd]. constructor; [by apply IH|].
  apply Forall_forall. intros y Hy.
  rewrite Forall_forall in Hx. specialize (Hx y Hy).
  assert (x ≠ y) by (intros ->; done). lia.
Qed.

Lemma assign_apply_inr {A B} (f : A → result B) (frame : list A) (bs : list B) :
  assign_apply f frame = inr bs ↔ frame ≠ [] ∧ comprehension f frame = inr bs.
Proof. destruct frame; simpl; [split; [done | by intros [? _]] | by split; [|intros [_ ?]]]. Qed.

Lemma assign_apply_inl {A B} (f : A → result B) (frame : list A) (e : exn) :
  assign_apply f frame = inl e ↔
  (frame = [] ∧ e = ValueError) ∨ (frame ≠ [] ∧ comprehension f frame = inl e).
Proof.
  destruct frame as [|a frame]; simpl.
  - split; [intros [= <-]; by left | intros [[_ ->]|[? _]]; done].
  - split; [by right | by intros [[? _]|[_ ?]]].
Qed.

Lemma unique_nil {A} `{EqDecision A} (l : list A) : unique l = [] ↔ l = [].
Proof. by destruct l. Qed.

(** The stages of [df_barplot], when it returns. *)
Lemma df_barplot_inv (df : list BirthRecord) (tbl : list Barplot.row) :
  df_barplot df = inr tbl →
  ∃ rows norm,
    Forall2 (λ month row,
               ∃ name, list_item months (month - 1) = inr name ∧
                       row = (month, name, count_rows (λ r, MNAIS r = month) df))
            (unique (map MNAIS df)) rows ∧
    Forall2 (λ ser n, births_norm ser = inr n)
            (sort_values (λ row, row.1.1) rows) norm ∧
    df_barplot_base df = inr (sort_values (λ row, row.1.1) rows) ∧
    tbl = zip_with
            (λ ser n,
               {| Barplot.Month_ind := ser.1.1;
                  Barplot.Month_birth := ser.1.2;
                  Barplot.Births_abs := ser.2;
                  Barplot.Births_norm := n;
                  Barplot.Month_procreation := replace procreation ser.1.2;
                  Barplot.Number := n |})
            (sort_values (λ row, row.1.1) rows) norm.
Proof.
  unfold df_barplot, df_barplot_base.
  destruct (comprehension _ (unique (map MNAIS df))) as [e|rows] eqn:Hrows;
    simpl; [done|].
  destruct (assign_apply births_norm _) as [e|norm] eqn:Hnorm; simpl; [done|].
  intros [= <-]. exists rows, norm.
  apply assign_apply_inr in Hnorm as [_ Hnorm].
  apply comprehension_inr in Hrows, Hnorm. split; [|done].
  eapply Forall2_impl; [exact Hrows|]. intros month row; simpl.
  unfold months_item. destruct (column_is_int64 _); simpl; [|done].
  destruct (list_item months (month - 1)) as [e|name]; simpl; [done|].
  intros [= <-]. by exists name.
Qed.

(** The table is built from a frame that has rows. *)
Lemma df_barplot_nonempty (df : list BirthRecord) (tbl : list Barplot.row) :
  df_barplot df = inr tbl → df ≠ [].
Proof. intros Htbl ->. done. Qed.

Lemma column_is_int64_months (df : list BirthRecord) :
  (∀ r, r ∈ df → -11 ≤ MNAIS r ≤ 12) → column_is_int64 (map MNAIS df) = true.
Proof.
  intros Hwf. unfold column_is_int64. apply forallb_forall.
  intros m Hm%list_elem_of_In. to_fmap.
  apply list_elem_of_fmap in Hm as (r & -> & Hr). specialize (Hwf r Hr).
  unfold int64. apply andb_true_iff. split; [apply Z.leb_le | apply Z.ltb_lt]; lia.
Qed.

(** What one row of the monthly table holds. *)
Lemma df_barplot_row (df : list BirthRecord) (tbl : list Barplot.row) (row : Barplot.row) :
  df_barplot df = inr tbl → row ∈ tbl →
  Barplot.Month_ind row ∈ map MNAIS df ∧
  list_item months (Barplot.Month_ind row - 1) = inr (Barplot.Month_birth row) ∧
  Barplot.Births_abs row
  = count_rows (λ r, MNAIS r = Barplot.Month_ind row) df ∧
  births_norm (Barplot.Month_ind row, Barplot.Month_birth row, Barplot.Births_abs row)
  = inr (Barplot.Births_norm row) ∧
  Barplot.Month_procreation row = replace procreation (Barplot.Month_birth row) ∧
  Barplot.Number row = Barplot.Births_norm row.
Proof.
  intros (rows & norm & Hrows & Hnorm & _ & ->)%df_barplot_inv Hrow.
  apply elem_of_lookup_zip_with_1 in Hrow as (i & ser & n & -> & Hser & Hn).
  pose proof (Forall2_lookup_lr _ _ _ _ _ _ Hnorm Hser Hn) as Hbn.
  assert (ser ∈ rows) as Hin.
  { rewrite <-(sort_values_Permutation (λ row, row.1.1) rows).
    by eapply list_elem_of_lookup_2. }
  apply list_elem_of_lookup in Hin as [j Hj].
  destruct (Forall2_lookup_r _ _ _ _ _ Hrows Hj) as (month & Hmonth & name & Hname & ->).
  simpl in *. repeat split; try done.
  apply elem_of_unique. by eapply list_elem_of_lookup_2.
Qed.

Lemma fmap_zip_with_key {A B C D} (f : A → B → C) (g : C → D) (h : A → D)
    (l : list A) (k : list B) :
  (∀ x y, g (f x y) = h x) → (length l ≤ length k)%nat →
  g <$> zip_with f l k = h <$> l.
Proof.
  intros Hg. revert k. induction l as [|x l IH]; intros [|y k] Hlen;
    simpl in *; try done; try lia.
  rewrite Hg, IH; [done | lia].
Qed.

Lemma list_item_months (m : Z) :
  1 ≤ m ≤ 12 → ∃ name, list_item months (m - 1) = inr name.
Proof.
  intros Hm.
  assert (m = 1 ∨ m = 2 ∨ m = 3 ∨ m = 4 ∨ m = 5 ∨ m = 6 ∨
          m = 7 ∨ m = 8 ∨ m = 9 ∨ m = 10 ∨ m = 11 ∨ m = 12) as Hcases by lia.
  repeat (destruct Hcases as [->|Hcases]; [by eexists|]). subst. by eexists.
Qed.

Lemma monthrange_ndays_2019 (m : Z) :
  1 ≤ m ≤ 12 → ∃ d, monthrange_ndays 2019 m = inr d ∧ 28 ≤ d ≤ 31.
Proof.
  intros Hm.
  assert (m = 1 ∨ m = 2 ∨ m = 3 ∨ m = 4 ∨ m = 5 ∨ m = 6 ∨
          m = 7 ∨ m = 8 ∨ m = 9 ∨ m = 10 ∨ m = 11 ∨ m = 12) as Hcases by lia.
  repeat (destruct Hcases as [->|Hcases];
          [eexists; split; [reflexivity | simpl; lia]|]).
  subst. eexists; split; [reflexivity | simpl; lia].
Qed.

Lemma monthrange_ndays_inr (year m d : Z) :
  monthrange_ndays year m = inr d → 1 ≤ m ≤ 12.
Proof.
  unfold monthrange_ndays.
  destruct ((1 <=? m) && (m <=? 12)) eqn:Hm; simpl; [|done].
  intros _. apply andb_true_iff in Hm. lia.
Qed.

(** The month column of the table is the sorted list of the distinct months
    of the data. *)
Lemma df_barplot_Month_ind (df : list BirthRecord) (tbl : list Barplot.row) :
  df_barplot df = inr tbl →
  map Barplot.Month_ind tbl = sorted (unique (map MNAIS df)).
Proof.
  intros (rows & norm & Hrows & Hnorm & _ & ->)%df_barplot_inv.
  to_fmap.
  rewrite (fmap_zip_with_key _ _ (λ row : Z * string * Z, row.1.1));
    [|done|by rewrite (Forall2_length _ _ _ Hnorm)].
  apply (Sorted_unique Z.le).
  - apply sort_values_Sorted.
  - apply (Sorted_merge_sort Z.le).
  - unfold sorted. rewrite merge_sort_Permutation, sort_values_Permutation.
    assert ((λ row : Z * string * Z, row.1.1) <$> rows = unique (MNAIS <$> df)) as ->;
      [|done].
    clear Hnorm. induction Hrows as [|m row ms rows' (name & _ & ->) _ IH];
      [done|]. by rewrite fmap_cons, IH.
Qed.

Lemma sorted_unique_spec (xs : list Z) :
  StronglySorted Z.lt (sorted (unique xs)) ∧
  NoDup (sorted (unique xs)) ∧
  ∀ x, x ∈ sorted (unique xs) ↔ x ∈ xs.
Proof.
  assert (NoDup (sorted (unique xs))) as Hnd.
  { unfold sorted. rewrite merge_sort_Permutation. apply NoDup_unique. }
  split; [|split; [done|]].
  - apply Sorted_NoDup_lt; [|done]. apply (Sorted_merge_sort Z.le).
  - intros x. unfold sorted. by rewrite merge_sort_Permutation, elem_of_unique.
Qed.

(** The table is built whenever the frame has a row and the months of the
    data are months. *)
Lemma df_barplot_total (df : list BirthRecord) :
  df ≠ [] → (∀ r, r ∈ df → 1 ≤ MNAIS r ≤ 12) → ∃ tbl, df_barplot df = inr tbl.
Proof.
  intros Hne Hwf.
  assert (∀ m, m ∈ unique (map MNAIS df) → 1 ≤ m ≤ 12) as Hm.
  { intros m Hm. rewrite elem_of_unique in Hm. to_fmap.
    apply list_elem_of_fmap in Hm as (r & -> & Hr). by apply Hwf. }
  unfold df_barplot, df_barplot_base.
  rewrite column_is_int64_months by (intros r Hr; specialize (Hwf r Hr); lia).
  destruct (comprehension_total
              (λ month,
                 let* name := months_item true month in
                 ret (month, name, count_rows (λ r, MNAIS r = month) df))
              (unique (map MNAIS df))) as [rows Hrows].
  { intros m Hin. unfold months_item.
    destruct (list_item_months m) as [name ->]; [by apply Hm|].
    by eexists. }
  rewrite Hrows. simpl.
  assert (sort_values (λ row : Z * string * Z, row.1.1) rows ≠ []) as Hne'.
  { intros Hnil. apply Hne.
    apply comprehension_inr, Forall2_length in Hrows.
    apply (f_equal length) in Hnil.
    rewrite sort_values_Permutation in Hnil. simpl in Hnil.
    rewrite Hnil in Hrows. apply length_zero_iff_nil in Hrows.
    apply (proj1 (unique_nil _)) in Hrows. by apply map_eq_nil in Hrows. }
  destruct (comprehension_total births_norm (sort_values (λ row, row.1.1) rows))
    as [norm Hnorm];
    [|rewrite (proj2 (assign_apply_inr _ _ norm) (conj Hne' Hnorm)); by eexists].
  intros ser Hser. rewrite sort_values_Permutation in Hser.
  apply comprehension_inr in Hrows.
  apply list_elem_of_lookup in Hser as [j Hj].
  destruct (Forall2_lookup_r _ _ _ _ _ Hrows Hj) as (month & Hmonth & Hrow).
  unfold months_item in Hrow. simpl in Hrow.
  destruct (list_item months (month - 1)); simpl in Hrow; [done|].
  injection Hrow as <-. unfold births_norm. simpl.
  destruct (monthrange_ndays_2019 month) as (d & -> & _); [|by eexists].
  apply Hm. by eapply list_elem_of_lookup_2.
Qed.

(** The table is built only then: a month outside 1..12 makes
    [months[month - 1]] or [monthrange] raise. *)
Lemma df_barplot_returns (df : list BirthRecord) (tbl : list Barplot.row) :
  df_barplot df = inr tbl → ∀ r, r ∈ df → 1 ≤ MNAIS r ≤ 12.
Proof.
  intros Htbl r Hr.
  assert (MNAIS r ∈ map Barplot.Month_ind tbl) as Hin.
  { rewrite (df_barplot_Month_ind df tbl Htbl).
    apply sorted_unique_spec. to_fmap. by apply list_elem_of_fmap_2. }
  to_fmap. apply list_elem_of_fmap in Hin as (row & -> & Hrow).
  destruct (df_barplot_row df tbl row Htbl Hrow) as (_ & _ & _ & Hnorm & _).
  unfold births_norm in Hnorm. simpl in Hnorm.
  destruct (monthrange_ndays 2019 (Barplot.Month_ind row)) eqn:Hd; [done|].
  by eapply monthrange_ndays_inr.
Qed.

(** A month of the data has its row in the table. *)
Lemma df_barplot_month_row (df : list BirthRecord) (tbl : list Barplot.row) (month : Z) :
  df_barplot df = inr tbl → month ∈ map MNAIS df →
  ∃ row, row ∈ tbl ∧ Barplot.Month_ind row = month.
Proof.
  intros Htbl Hmonth.
  assert (month ∈ map Barplot.Month_ind tbl) as Hin.
  { rewrite (df_barplot_Month_ind df tbl Htbl). by apply sorted_unique_spec. }
  to_fmap. apply list_elem_of_fmap in Hin as (row & -> & Hrow). by exists row.
Qed.

Lemma elem_of_map_nonempty {A B} (f : A → B) (l : list A) (b : B) :
  b ∈ map f l → l ≠ [].
Proof. intros Hb ->. inversion Hb. Qed.

(** C8, as the code has it. Whenever there is a record and the months of
    the records are months (1 to 12), the monthly table is built, its month
    column is strictly increasing (so every month occurs once), and the
    months it lists are exactly the months that occur in the data. *)
Theorem df_barplot_months (df : list BirthRecord) :
  df ≠ [] →
  (∀ r, r ∈ df → 1 ≤ MNAIS r ≤ 12) →
  ∃ tbl, df_barplot df = inr tbl ∧
    StronglySorted Z.lt (map Barplot.Month_ind tbl) ∧
    NoDup (map Barplot.Month_ind tbl) ∧
    ∀ m, m ∈ map Barplot.Month_ind tbl ↔ m ∈ map MNAIS df.
Proof.
  intros Hne Hwf. destruct (df_barplot_total df Hne Hwf) as [tbl Htbl].
  exists tbl. split; [done|].
  rewrite (df_barplot_Month_ind df tbl Htbl). apply sorted_unique_spec.
Qed.

(** ** Rounding and the normalised count *)

(** [round] returns an integer nearest to its argument. *)
Lemma py_round_nearest (x : Q) :
  (Qabs (inject_Z (py_round x) - x) <= 1 # 2)%Q.
Proof.
  pose proof (Qfloor_le x) as Hlo. pose proof (Qlt_floor x) as Hhi.
  rewrite inject_Z_plus in Hhi. change (inject_Z 1) with 1%Q in Hhi.
  apply Qabs_Qle_condition. unfold py_round.
  destruct (Qcompare_spec (x - inject_Z (Qfloor x)) (1 # 2)) as [He|Hl|Hg].
  - destruct (Z.even (Qfloor x)).
    + lra.
    + rewrite inject_Z_plus. change (inject_Z 1) with 1%Q. lra.
  - lra.
  - rewrite inject_Z_plus. change (inject_Z 1) with 1%Q. lra.
Qed.

(** On a tie, [round] returns the even neighbour. *)
Lemma py_round_tie (x : Q) :
  (x - inject_Z (Qfloor x) == 1 # 2)%Q → Z.even (py_round x) = true.
Proof.
  intros He. unfold py_round.
  apply Qeq_alt in He. rewrite He.
  destruct (Z.even (Qfloor x)) eqn:Hf; [done|].
  rewrite Z.even_add, Hf. done.
Qed.

(** The normalised count of one row of the table. *)
Lemma births_norm_row (df : list BirthRecord) (tbl : list Barplot.row)
    (row : Barplot.row) :
  df_barplot df = inr tbl → row ∈ tbl →
  ∃ ndays,
    monthrange_ndays 2019 (Barplot.Month_ind row) = inr ndays ∧
    Barplot.Births_abs row = count_rows (λ r, MNAIS r = Barplot.Month_ind row) df ∧
    Barplot.Births_norm row
    = py_round (inject_Z (Barplot.Births_abs row) / inject_Z ndays * 30) ∧
    (Barplot.Month_ind row = 2 →
       ndays = 28 ∧
       Barplot.Births_norm row
       = py_round (inject_Z (Barplot.Births_abs row) / 28 * 30)) ∧
    (Qabs (inject_Z (Barplot.Births_norm row)
           - inject_Z (Barplot.Births_abs row) / inject_Z ndays * 30) <= 1 # 2)%Q.
Proof.
  intros Htbl Hrow.
  destruct (df_barplot_row df tbl row Htbl Hrow) as (_ & _ & Habs & Hnorm & _).
  unfold births_norm in Hnorm. simpl in Hnorm.
  destruct (monthrange_ndays 2019 (Barplot.Month_ind row)) as [e|ndays] eqn:Hdays;
    simpl in Hnorm; [done|].
  injection Hnorm as Hnorm. exists ndays.
  split; [done|]. split; [done|]. split; [done|]. split.
  - intros Hfeb. rewrite Hfeb in Hdays. injection Hdays as <-. by split.
  - rewrite <-Hnorm. apply py_round_nearest.
Qed.

(** C7. The monthly table of records whose months are months is built, it
    has a row for every month of the data, and in every row of it, with
    [A] the absolute count of the row (the number of records of that
    month), the normalised count is [round(A / ndays * 30)], where [ndays]
    is the number of days of the month in 2019; in particular
    [round(A / 28 * 30)] for month 2. The rounding is to a nearest
    integer. *)
Theorem births_norm_formula (df : list BirthRecord) (month : Z) :
  (∀ r, r ∈ df → 1 ≤ MNAIS r ≤ 12) →
  month ∈ map MNAIS df →
  ∃ tbl, df_barplot df = inr tbl ∧
    (∃ row, row ∈ tbl ∧ Barplot.Month_ind row = month) ∧
    ∀ row, row ∈ tbl →
      ∃ ndays,
        monthrange_ndays 2019 (Barplot.Month_ind row) = inr ndays ∧
        Barplot.Births_abs row
        = count_rows (λ r, MNAIS r = Barplot.Month_ind row) df ∧
        Barplot.Births_norm row
        = py_round (inject_Z (Barplot.Births_abs row) / inject_Z ndays * 30) ∧
        (Barplot.Month_ind row = 2 →
           ndays = 28 ∧
           Barplot.Births_norm row
           = py_round (inject_Z (Barplot.Births_abs row) / 28 * 30)) ∧
        (Qabs (inject_Z (Barplot.Births_norm row)
               - inject_Z (Barplot.Births_abs row) / inject_Z ndays * 30)
         <= 1 # 2)%Q.
Proof.
  intros Hwf Hmonth.
  destruct (df_barplot_total df (elem_of_map_nonempty _ _ _ Hmonth) Hwf)
    as [tbl Htbl].
  exists tbl. split; [done|]. split; [by apply (df_barplot_month_row df)|].
  intros row Hrow. by apply (births_norm_row df tbl).
Qed.

(** ** The procreation month *)

Lemma procreation_pairs_lookup (m : Z) (label : string) :
  (m, label) ∈ procreation_pairs → procreation_label m = inr label.
Proof.
  intros Hin. unfold procreation_pairs in Hin.
  repeat (apply elem_of_cons in Hin as [[= -> ->]|Hin]; [reflexivity|]).
  inversion Hin.
Qed.

Lemma procreation_label_pairs (m : Z) (label : string) :
  1 ≤ m ≤ 12 → procreation_label m = inr label → (m, label) ∈ procreation_pairs.
Proof.
  intros Hm Hlabel.
  assert (m = 1 ∨ m = 2 ∨ m = 3 ∨ m = 4 ∨ m = 5 ∨ m = 6 ∨
          m = 7 ∨ m = 8 ∨ m = 9 ∨ m = 10 ∨ m = 11 ∨ m = 12) as Hcases by lia.
  unfold procreation_pairs.
  repeat (destruct Hcases as [->|Hcases];
          [vm_compute in Hlabel; injection Hlabel as <-; solve_elem_of|]).
  subst. vm_compute in Hlabel. injection Hlabel as <-. solve_elem_of.
Qed.

(** The procreation label of one row of the table. *)
Lemma procreation_label_row (df : list BirthRecord) (tbl : list Barplot.row)
    (row : Barplot.row) :
  df_barplot df = inr tbl → row ∈ tbl →
  Barplot.Month_procreation row = replace procreation (Barplot.Month_birth row) ∧
  procreation_label (Barplot.Month_ind row) = inr (Barplot.Month_procreation row) ∧
  (Barplot.Month_ind row, Barplot.Month_procreation row) ∈ procreation_pairs.
Proof.
  intros Htbl Hrow.
  destruct (df_barplot_row df tbl row Htbl Hrow)
    as (_ & Hname & _ & Hnorm & Hproc & _).
  split; [done|].
  assert (procreation_label (Barplot.Month_ind row)
          = inr (Barplot.Month_procreation row)) as Hlabel.
  { unfold procreation_label. by rewrite Hname, Hproc. }
  split; [done|]. apply procreation_label_pairs; [|done].
  unfold births_norm in Hnorm. simpl in Hnorm.
  destruct (monthrange_ndays 2019 (Barplot.Month_ind row)) eqn:Hd; [done|].
  by eapply monthrange_ndays_inr.
Qed.

(** C6. The procreation label is a fixed lookup on the birth month: the
    twelve listed pairs are what the lookup returns (birth month 9 gives
    "December 2018", birth month 10 "January 2019"); and the monthly table
    of records whose months are months is built, has a row for every month
    of the data, and every row of it carries the listed label of its month,
    which is the replacement of its birth-month label. *)
Theorem procreation_label_lookup (df : list BirthRecord) (month : Z) :
  (∀ m label, (m, label) ∈ procreation_pairs → procreation_label m = inr label) ∧
  ((∀ r, r ∈ df → 1 ≤ MNAIS r ≤ 12) →
   month ∈ map MNAIS df →
   ∃ tbl, df_barplot df = inr tbl ∧
     (∃ row, row ∈ tbl ∧ Barplot.Month_ind row = month) ∧
     ∀ row, row ∈ tbl →
       Barplot.Month_procreation row
       = replace procreation (Barplot.Month_birth row) ∧
       procreation_label (Barplot.Month_ind row)
       = inr (Barplot.Month_procreation row) ∧
       (Barplot.Month_ind row, Barplot.Month_procreation row) ∈ procreation_pairs).
Proof.
  split; [apply procreation_pairs_lookup|].
  intros Hwf Hmonth.
  destruct (df_barplot_total df (elem_of_map_nonempty _ _ _ Hmonth) Hwf)
    as [tbl Htbl].
  exists tbl. split; [done|]. split; [by apply (df_barplot_month_row df)|].
  intros row Hrow. by apply (procreation_label_row df tbl).
Qed.

(** ** Recognition rate by age *)

Lemma np_rate_zero_count (num den : Z) :
  0 ≤ num ≤ den → den = 0 → np_scale (np_true_divide num den) 100 = nan.
Proof. intros Hnum ->. by assert (num = 0) as -> by lia. Qed.

Lemma count_rows_and_le {A} (P Q : A → Prop) `{∀ x, Decision (P x)}
    `{∀ x, Decision (Q x)} (l : list A) :
  0 ≤ count_rows (λ x, P x ∧ Q x) l ≤ count_rows P l.
Proof.
  split; [apply count_rows_nonneg|].
  induction l as [|a l IH]; [done|].
  rewrite (count_rows_cons (λ x, P x ∧ Q x)), (count_rows_cons P).
  destruct (decide (P a ∧ Q a)), (decide (P a)); try tauto; lia.
Qed.

(** C3. In the recognition table, a row of a parent and an age for which no
    record has that parent at that age carries [nan], a non-finite value
    (not 0). *)
Theorem recognition_zero_count_nan (df : list BirthRecord) (parent : string)
    (age : Z) (rate : float64 Q) :
  (parent, age, rate) ∈ recognition df →
  count_rows (λ r, parent_age parent r = age) df = 0 →
  rate = nan ∧ is_finite rate = false ∧ rate ≠ fin 0.
Proof.
  intros Hrow Hcount.
  assert (rate = nan) as ->; [|done].
  unfold recognition in Hrow.
  apply elem_of_flat_map in Hrow as (a & _ & Hrow).
  apply elem_of_cons in Hrow as [[= -> -> ->]|Hrow].
  - apply np_rate_zero_count; [|exact Hcount].
    apply (count_rows_and_le (λ r, AGEXACTM r = a)).
  - apply list_elem_of_singleton in Hrow as [= -> -> ->].
    apply np_rate_zero_count; [|exact Hcount].
    apply (count_rows_and_le (λ r, AGEXACTP r = a)).
Qed.

(** ** Last-name choice by age *)

Lemma record_add_last_name_choice (df : list BirthRecord) :
  map record (add_last_name_choice df) = df.
Proof.
  unfold add_last_name_choice. rewrite map_map. simpl. apply map_id.
Qed.

Lemma AGEXACTP_add_last_name_choice (df : list BirthRecord) :
  map (λ r : LabelledRecord, AGEXACTP r) (add_last_name_choice df)
  = map AGEXACTP df.
Proof. unfold add_last_name_choice. by rewrite map_map. Qed.

(** The entries of the table: one per age of the father's column and label
    of the frame. *)
Lemma elem_of_last_name_line (df : list LabelledRecord) (age : Z) (name : string)
    (u : float64 Q) :
  (age, name, u) ∈ last_name_line df ↔
  age ∈ map (λ r : LabelledRecord, AGEXACTP r) df ∧
  name ∈ map Last_name_choice df ∧
  u = usage df age name.
Proof.
  unfold last_name_line. rewrite elem_of_flat_map. split.
  - intros (a & Ha & Hrow). to_fmap.
    apply list_elem_of_fmap in Hrow as (n & [= -> -> ->] & Hn).
    unfold sorted in Ha. rewrite merge_sort_Permutation, elem_of_unique in Ha.
    rewrite elem_of_unique in Hn. done.
  - intros (Ha & Hn & ->). exists age. split.
    + unfold sorted. by rewrite merge_sort_Permutation, elem_of_unique.
    + to_fmap. apply list_elem_of_fmap. exists name.
      split; [done|]. by rewrite elem_of_unique.
Qed.

(** No age and label has two entries. *)
Lemma last_name_line_NoDup (df : list LabelledRecord) :
  NoDup (map fst (last_name_line df)).
Proof.
  to_fmap. apply NoDup_fmap_fst.
  - intros [age name] u1 u2 (_ & _ & ->)%elem_of_last_name_line
      (_ & _ & ->)%elem_of_last_name_line. done.
  - unfold last_name_line.
    match goal with |- NoDup (flat_map ?f ?l) => change (NoDup (l ≫= f)) end.
    apply NoDup_bind.
    + intros a1 a2 y _ _ Hy1 Hy2. to_fmap.
      apply list_elem_of_fmap in Hy1 as (n1 & -> & _).
      apply list_elem_of_fmap in Hy2 as (n2 & [= -> _] & _). done.
    + intros a _. to_fmap. apply NoDup_fmap_2_strong; [|apply NoDup_unique].
      by intros n1 n2 _ _ [= ->].
    + unfold sorted. rewrite merge_sort_Permutation. apply NoDup_unique.
Qed.

(** An age of the father's column selects at least one row. *)
Lemma sub_df_nonempty (df : list LabelledRecord) (age : Z) :
  age ∈ map (λ r : LabelledRecord, AGEXACTP r) df →
  0 < Z.of_nat (length (sub_df df age)).
Proof.
  intros Hage. to_fmap. apply list_elem_of_fmap in Hage as (r & -> & Hr).
  assert (r ∈ sub_df df (AGEXACTP r)) as Hin.
  { apply list_elem_of_filter. split; [by left | done]. }
  destruct (sub_df df (AGEXACTP r)); [inversion Hin | simpl; lia].
Qed.

Lemma np_rate_finite (num den : Z) :
  0 ≤ num ≤ den → 0 < den →
  np_scale (np_true_divide num den) 100 = fin (inject_Z num / inject_Z den * 100) ∧
  (0 <= inject_Z num / inject_Z den * 100 <= 100)%Q.
Proof.
  intros Hnum Hden. unfold np_true_divide.
  destruct (den =? 0) eqn:Hz; [lia|]. split; [done|].
  assert (0 < inject_Z den)%Q as Hd by (rewrite <-(Zlt_Qlt 0); lia).
  assert (0 <= inject_Z num)%Q as Hn0 by (rewrite <-(Zle_Qle 0); lia).
  assert (inject_Z num <= inject_Z den)%Q as Hnd by (rewrite <-Zle_Qle; lia).
  assert (0 <= inject_Z num / inject_Z den <= 1)%Q as [H0 H1].
  { split.
    - apply Qle_shift_div_l; [done|]. lra.
    - apply Qle_shift_div_r; [done|]. lra. }
  lra.
Qed.

(** C10. Every entry of the last-name-by-age table has an age of the
    father's column; the subset that this age selects (either parent has
    the age) is not empty, so the denominator is positive and the
    percentage is a finite value, between 0 and 100. The recognition table
    has no such guarantee: it can hold a [nan] for an age that no mother
    has. *)
Theorem last_name_line_finite (df : list BirthRecord) :
  (∀ age name u,
     (age, name, u) ∈ last_name_line (last_name_pie df).1 →
     age ∈ map AGEXACTP df ∧
     0 < Z.of_nat (length (sub_df (last_name_pie df).1 age)) ∧
     is_finite u = true ∧
     ∃ q, u = fin q ∧ (0 <= q <= 100)%Q) ∧
  (∃ df0 age,
     ("Mother", age, nan) ∈ recognition df0 ∧
     count_rows (λ r, AGEXACTM r = age) df0 = 0).
Proof.
  split.
  - simpl. intros age name u (Hage & _ & ->)%elem_of_last_name_line.
    pose proof (sub_df_nonempty _ _ Hage) as Hpos.
    rewrite AGEXACTP_add_last_name_choice in Hage.
    split; [done|]. split; [done|].
    destruct (np_rate_finite
                (count_rows (λ r, Last_name_choice r = name)
                   (sub_df (add_last_name_choice df) age))
                (Z.of_nat (length (sub_df (add_last_name_choice df) age))))
      as [Hfin Hrange]; [apply count_rows_nonneg | done |].
    unfold usage. rewrite Hfin. split; [done|]. by eexists.
  - exists three_births, 30. split; [vm_compute; solve_elem_of | reflexivity].
Qed.

(** C2, as the code has it. For every age of the father's age column and
    every last-name label present in the frame, the table has an entry, and
    only one (no age and label is listed twice); its value is the share, in
    percent, of that label among the records where either parent has that
    age: the count of those records with that label, divided by their
    number, times 100. *)
Theorem last_name_line_share (df : list BirthRecord) (age : Z) (name : string) :
  age ∈ map AGEXACTP df →
  name ∈ map Last_name_choice (last_name_pie df).1 →
  NoDup (map fst (last_name_line (last_name_pie df).1)) ∧
  ∃ u,
    (age, name, u) ∈ last_name_line (last_name_pie df).1 ∧
    (∀ u', (age, name, u') ∈ last_name_line (last_name_pie df).1 → u' = u) ∧
    u = fin (inject_Z (count_rows (λ r, Last_name_choice r = name)
                         (sub_df (last_name_pie df).1 age))
             / inject_Z (Z.of_nat (length (sub_df (last_name_pie df).1 age)))
             * 100).
Proof.
  simpl. intros Hage Hname. split; [apply last_name_line_NoDup|].
  rewrite <-AGEXACTP_add_last_name_choice in Hage.
  exists (usage (add_last_name_choice df) age name). split; [|split].
  - by apply elem_of_last_name_line.
  - by intros u' (_ & _ & ->)%elem_of_last_name_line.
  - apply np_rate_finite; [apply count_rows_nonneg|].
    by apply sub_df_nonempty.
Qed.

(** ** Last-name origin by nationality *)

Lemma elem_of_add_last_name_choice (df : list BirthRecord) (r : LabelledRecord) :
  r ∈ add_last_name_choice df ↔
  record r ∈ df ∧ Last_name_choice r = last_name_choice (record r).
Proof.
  unfold add_last_name_choice. to_fmap. rewrite list_elem_of_fmap. split.
  - by intros (ser & -> & Hser).
  - intros [Hr Hl]. exists (record r). split; [|done].
    destruct r as [ser l]. simpl in *. by rewrite Hl.
Qed.

(** A code outside 1..5, or a missing code, gets the default label. *)
Lemma last_name_choice_default (ser : BirthRecord) :
  (∀ code, ORIGINOM ser = Some code → ¬ 1 ≤ code ≤ 5) →
  last_name_choice ser = "Father".
Proof.
  unfold last_name_choice. destruct (ORIGINOM ser) as [code|]; [|done].
  intros Hcode. specialize (Hcode code eq_refl).
  unfold dict_get_default, ind_to_origine_nom. simpl.
  repeat (destruct (decide _) as [<-|_]; [lia|]). done.
Qed.

Lemma groupby_count_eq (df : list LabelledRecord) :
  groupby_count df
  = map (λ k, (k, count_rows (λ r, key_of r = k) df))
        (merge_sort key_le (unique (map key_of df))).
Proof.
  unfold groupby_count, count_rows. apply map_ext. intros k.
  by rewrite length_map.
Qed.

Lemma elem_of_groupby_count (df : list LabelledRecord) (k : group_key) (n : Z) :
  (k, n) ∈ groupby_count df ↔
  k ∈ map key_of df ∧ n = count_rows (λ r, key_of r = k) df.
Proof.
  rewrite groupby_count_eq. to_fmap. rewrite list_elem_of_fmap.
  setoid_rewrite merge_sort_Permutation. setoid_rewrite elem_of_unique.
  split; [intros (k' & [= -> ->] & Hk); done | intros [Hk ->]; by exists k].
Qed.

(** The sizes of the groups add up to the number of rows. *)
Lemma groupby_count_total (df : list LabelledRecord) :
  sumZ (map snd (groupby_count df)) = Z.of_nat (length df).
Proof.
  rewrite groupby_count_eq, map_map. simpl.
  rewrite (sum_counts_NoDup key_of).
  - apply count_rows_all. intros r Hr.
    rewrite merge_sort_Permutation, elem_of_unique. to_fmap.
    by apply list_elem_of_fmap_2.
  - rewrite merge_sort_Permutation. apply NoDup_unique.
Qed.

Lemma dict_item_ind_to_nat (flag : Z) :
  (flag = 1 ∨ flag = 2) ∧ (∃ s, dict_item ind_to_nat flag = inr s) ∨
  ¬ (flag = 1 ∨ flag = 2) ∧ dict_item ind_to_nat flag = inl KeyError.
Proof.
  unfold dict_item, ind_to_nat. simpl.
  destruct (decide (1 = flag)) as [<-|?]; [left; split; [by left | by eexists]|].
  destruct (decide (2 = flag)) as [<-|?]; [left; split; [by right | by eexists]|].
  right. split; [lia | done].
Qed.

(** A group's row is built when both flags of its key are 1 or 2; otherwise
    the lookup raises [KeyError]. *)
Lemma sunburst_row_cases (ser : group_key * Z) :
  ((ser.1.1.1 = 1 ∨ ser.1.1.1 = 2) ∧ (ser.1.1.2 = 1 ∨ ser.1.1.2 = 2)) ∧
    (∃ row, sunburst_row ser = inr row ∧ Sunburst.Births row = ser.2) ∨
  ¬ ((ser.1.1.1 = 1 ∨ ser.1.1.1 = 2) ∧ (ser.1.1.2 = 1 ∨ ser.1.1.2 = 2)) ∧
    sunburst_row ser = inl KeyError.
Proof.
  unfold sunburst_row.
  destruct (dict_item_ind_to_nat ser.1.1.1) as [[Hp [father ->]]|[Hp ->]];
    [|right; split; [tauto | done]].
  destruct (dict_item_ind_to_nat ser.1.1.2) as [[Hm [mother ->]]|[Hm ->]];
    [|right; split; [tauto | done]].
  left. split; [done|]. by eexists.
Qed.

(** [last_name_pie] raises exactly when some record has a flag other than 1
    and 2, and then what it raises is [KeyError]. *)
Lemma last_name_pie_raises (df : list BirthRecord) (e : exn) :
  (last_name_pie df).2 = inl e →
  e = KeyError ∧
  ∃ r, r ∈ df ∧ ¬ ((INDNATP r = 1 ∨ INDNATP r = 2) ∧ (INDNATM r = 1 ∨ INDNATM r = 2)).
Proof.
  simpl. intros (ser & Hser & Hrow)%comprehension_inl.
  destruct (sunburst_row_cases ser) as [[_ (row & Hok & _)]|[Hbad Hko]];
    [congruence|].
  split; [congruence|].
  destruct ser as [k n]. apply elem_of_groupby_count in Hser as [Hk _].
  to_fmap. apply list_elem_of_fmap in Hk as (r & -> & Hr).
  apply elem_of_add_last_name_choice in Hr as [Hr _].
  by exists (record r).
Qed.

Lemma last_name_pie_bad_flag (df : list BirthRecord) (r : BirthRecord) :
  r ∈ df →
  ¬ ((INDNATP r = 1 ∨ INDNATP r = 2) ∧ (INDNATM r = 1 ∨ INDNATM r = 2)) →
  (last_name_pie df).2 = inl KeyError.
Proof.
  intros Hr Hbad.
  set (r' := {| record := r; Last_name_choice := last_name_choice r |}).
  assert (r' ∈ add_last_name_choice df) as Hr'
    by by apply elem_of_add_last_name_choice.
  pose (ser := (key_of r', count_rows (λ x, key_of x = key_of r') (add_last_name_choice df))).
  assert (ser ∈ groupby_count (add_last_name_choice df)) as Hser.
  { apply elem_of_groupby_count. split; [|done]. to_fmap.
    by apply list_elem_of_fmap_2. }
  destruct (sunburst_row_cases ser) as [[Hok _]|[_ Hko]]; [done|].
  destruct (comprehension_raises sunburst_row _ ser KeyError Hser Hko) as [e He].
  destruct (last_name_pie_raises df e He) as [-> _]. exact He.
Qed.

(** C4. [last_name_pie] fails with [KeyError] if and only if some record
    has a mother's or father's nationality flag other than 1 and 2; it fails
    in no other way; and when every record has both flags in {1, 2} it
    returns the rows of the figure. *)
Theorem last_name_pie_KeyError (df : list BirthRecord) :
  ((last_name_pie df).2 = inl KeyError ↔
   ∃ r, r ∈ df ∧ (¬ (INDNATM r = 1 ∨ INDNATM r = 2) ∨
                  ¬ (INDNATP r = 1 ∨ INDNATP r = 2))) ∧
  (∀ e, (last_name_pie df).2 = inl e → e = KeyError) ∧
  ((∀ r, r ∈ df → (INDNATM r = 1 ∨ INDNATM r = 2) ∧
                  (INDNATP r = 1 ∨ INDNATP r = 2)) →
   ∃ rows, (last_name_pie df).2 = inr rows).
Proof.
  split; [split|split].
  - intros (_ & r & Hr & Hbad)%last_name_pie_raises.
    exists r. split; [done|]. lia.
  - intros (r & Hr & Hbad). apply (last_name_pie_bad_flag df r Hr). lia.
  - intros e He. by destruct (last_name_pie_raises df e He).
  - intros Hok. destruct (last_name_pie df).2 as [e|rows] eqn:Hpie;
      [|by eexists].
    destruct (last_name_pie_raises df e Hpie) as (_ & r & Hr & Hbad).
    destruct (Hok r Hr). tauto.
Qed.

(** C5. A record whose last-name-origin code is not one of 1..5 (9, say, or
    a missing code) is labelled "Father"; the frame keeps all the records;
    and the counts of the groups by father's flag, mother's flag and label
    add up to the number of records, in the grouped frame and in the rows
    of the figure when they are built. *)
Theorem last_name_choice_default_and_total (df : list BirthRecord) :
  map record (last_name_pie df).1 = df ∧
  (∀ r : LabelledRecord, r ∈ (last_name_pie df).1 →
     (∀ code, ORIGINOM r = Some code → ¬ 1 ≤ code ≤ 5) →
     Last_name_choice r = "Father") ∧
  sumZ (map snd (groupby_count (last_name_pie df).1)) = Z.of_nat (length df) ∧
  (∀ rows, (last_name_pie df).2 = inr rows →
     sumZ (map Sunburst.Births rows) = Z.of_nat (length df)).
Proof.
  simpl. split; [apply record_add_last_name_choice|].
  assert (sumZ (map snd (groupby_count (add_last_name_choice df)))
          = Z.of_nat (length df)) as Htotal.
  { rewrite groupby_count_total. unfold add_last_name_choice.
    by rewrite length_map. }
  split; [|split; [done|]].
  - intros r [_ ->]%elem_of_add_last_name_choice Hcode.
    by apply last_name_choice_default.
  - intros rows Hrows%comprehension_inr. rewrite <-Htotal. f_equal.
    clear Htotal. induction Hrows as [|ser row sers rows Hrow _ IH]; [done|].
    simpl. rewrite IH. f_equal.
    destruct (sunburst_row_cases ser) as [[_ (row' & Hok & Hb)]|[_ Hko]];
      congruence.
Qed.

(** * The properties on the sample frames *)

Lemma df_choropleth_counts_witness :
  NoDup ["01"; "75"; "2A"] ∧
  (∀ c, c ∈ ["01"; "75"; "2A"] → String.length c ≠ 1%nat) ∧
  sumZ (map Choropleth.Births_abs
          (df_choropleth (clean_and_read_data winter_births) ["01"; "75"; "2A"]))
  = count_rows (λ r, clean_dep (DEPNAIS r) ∈ ["01"; "75"; "2A"]) winter_births.
Proof.
  assert (NoDup ["01"; "75"; "2A"]) as Hnd by compute_done.
  assert (∀ c, c ∈ ["01"; "75"; "2A"] → String.length c ≠ 1%nat) as Hlen
    by (apply Forall_forall; compute_done).
  split; [exact Hnd|]. split; [exact Hlen|].
  exact (proj1 (proj2 (df_choropleth_counts winter_births ["01"; "75"; "2A"] Hnd Hlen))).
Defined.

(** The birth registered in La Réunion is in no row of a table built on the
    metropolitan codes: the counts add up to 7, of 8 records. *)
Lemma df_choropleth_total_counterexample :
  sumZ (map Choropleth.Births_abs
          (df_choropleth (clean_and_read_data winter_births) ["01"; "75"; "2A"]))
  ≠ Z.of_nat (length winter_births).
Proof. vm_compute. discriminate. Qed.

Lemma df_barplot_months_witness :
  winter_births ≠ [] ∧
  (∀ r, r ∈ winter_births → 1 ≤ MNAIS r ≤ 12) ∧
  ∃ tbl, df_barplot winter_births = inr tbl ∧
    StronglySorted Z.lt (map Barplot.Month_ind tbl) ∧
    NoDup (map Barplot.Month_ind tbl) ∧
    ∀ m, m ∈ map Barplot.Month_ind tbl ↔ m ∈ map MNAIS winter_births.
Proof.
  assert (winter_births ≠ []) as Hne by done.
  assert (∀ r, r ∈ winter_births → 1 ≤ MNAIS r ≤ 12) as Hwf
    by (apply Forall_forall; compute_done).
  split; [exact Hne|]. split; [exact Hwf|].
  exact (df_barplot_months winter_births Hne Hwf).
Defined.

(** A file without any record gives no monthly table: the assignment of
    the normalised column raises. *)
Lemma df_barplot_months_empty_counterexample :
  (∀ r : BirthRecord, r ∈ [] → 1 ≤ MNAIS r ≤ 12) ∧
  df_barplot [] = inl ValueError ∧
  ¬ ∃ tbl, df_barplot [] = inr tbl.
Proof.
  split; [intros r Hr; inversion Hr|]. split; [reflexivity|].
  intros [tbl Htbl]. discriminate Htbl.
Qed.

(** The seven births of February count for 8 on a month of 30 days:
    7 / 28 * 30 = 7.5, rounded to the even neighbour. *)
Lemma births_norm_formula_witness :
  (∀ r, r ∈ winter_births → 1 ≤ MNAIS r ≤ 12) ∧
  2 ∈ map MNAIS winter_births ∧
  ∃ tbl row,
    df_barplot winter_births = inr tbl ∧ row ∈ tbl ∧
    Barplot.Month_ind row = 2 ∧
    Barplot.Births_abs row = 7 ∧
    Barplot.Births_norm row = 8.
Proof.
  assert (∀ r, r ∈ winter_births → 1 ≤ MNAIS r ≤ 12) as Hwf
    by (apply Forall_forall; compute_done).
  assert (2 ∈ map MNAIS winter_births) as Hin by compute_done.
  split; [exact Hwf|]. split; [exact Hin|].
  destruct (births_norm_formula winter_births 2 Hwf Hin)
    as (tbl & Htbl & (row & Hrow & Hmonth) & Hall).
  exists tbl, row.
  destruct (Hall row Hrow) as (ndays & _ & Habs & _ & Hfeb & _).
  destruct (Hfeb Hmonth) as [_ Hnorm].
  rewrite Hmonth in Habs. rewrite Hnorm, Habs.
  repeat split; [exact Htbl | exact Hrow | exact Hmonth].
Defined.

(** The row of October, in a table that also has September, carries
    "January 2019". *)
Lemma procreation_label_lookup_witness :
  (10, "January 2019") ∈ procreation_pairs ∧
  procreation_label 10 = inr "January 2019" ∧
  (∀ r, r ∈ autumn_births → 1 ≤ MNAIS r ≤ 12) ∧
  10 ∈ map MNAIS autumn_births ∧
  ∃ tbl row,
    df_barplot autumn_births = inr tbl ∧ row ∈ tbl ∧
    Barplot.Month_ind row = 10 ∧
    Barplot.Month_procreation row = "January 2019".
Proof.
  assert ((10, "January 2019") ∈ procreation_pairs) as Hin
    by (unfold procreation_pairs; solve_elem_of).
  assert (∀ r, r ∈ autumn_births → 1 ≤ MNAIS r ≤ 12) as Hwf
    by (apply Forall_forall; compute_done).
  assert (10 ∈ map MNAIS autumn_births) as Hmonth by compute_done.
  split; [exact Hin|]. split; [|split; [exact Hwf|split; [exact Hmonth|]]].
  - exact (proj1 (procreation_label_lookup autumn_births 10) 10 "January 2019" Hin).
  - destruct (proj2 (procreation_label_lookup autumn_births 10) Hwf Hmonth)
      as (tbl & Htbl & (row & Hrow & Hind) & Hall).
    exists tbl, row.
    destruct (Hall row Hrow) as (_ & Hlabel & _).
    rewrite Hind in Hlabel. injection Hlabel as Hlabel.
    repeat split; [exact Htbl | exact Hrow | exact Hind | by symmetry].
Defined.

Lemma recognition_zero_count_nan_witness :
  ("Mother", 30, nan) ∈ recognition three_births ∧
  count_rows (λ r, parent_age "Mother" r = 30) three_births = 0 ∧
  is_finite (nan : float64 Q) = false.
Proof.
  assert (("Mother", 30, nan) ∈ recognition three_births) as Hrow
    by (vm_compute; solve_elem_of).
  assert (count_rows (λ r, parent_age "Mother" r = 30) three_births = 0) as Hcount
    by reflexivity.
  split; [exact Hrow|]. split; [exact Hcount|].
  exact (proj1 (proj2 (recognition_zero_count_nan three_births "Mother" 30 nan
                         Hrow Hcount))).
Defined.

Lemma last_name_line_finite_witness :
  (30, "Father", fin (200 # 2)) ∈ last_name_line (last_name_pie three_births).1 ∧
  0 < Z.of_nat (length (sub_df (last_name_pie three_births).1 30)) ∧
  is_finite (fin (200 # 2)) = true.
Proof.
  assert ((30, "Father", fin (200 # 2))
          ∈ last_name_line (last_name_pie three_births).1) as Hrow
    by (vm_compute; solve_elem_of).
  split; [exact Hrow|].
  destruct (proj1 (last_name_line_finite three_births) 30 "Father" (fin (200 # 2)) Hrow)
    as (_ & Hpos & Hfin & _).
  split; [exact Hpos | exact Hfin].
Defined.

Lemma last_name_line_share_witness :
  30 ∈ map AGEXACTP three_births ∧
  "Father" ∈ map Last_name_choice (last_name_pie three_births).1 ∧
  ∃ u, (30, "Father", u) ∈ last_name_line (last_name_pie three_births).1 ∧
       u = fin (inject_Z 2 / inject_Z 2 * 100).
Proof.
  assert (30 ∈ map AGEXACTP three_births) as Hage by (vm_compute; solve_elem_of).
  assert ("Father" ∈ map Last_name_choice (last_name_pie three_births).1) as Hname
    by (vm_compute; solve_elem_of).
  split; [exact Hage|]. split; [exact Hname|].
  destruct (last_name_line_share three_births 30 "Father" Hage Hname)
    as (_ & u & Hin & _ & Hu).
  exists u. split; [exact Hin | exact Hu].
Defined.

(** A mother of 28 and no father of 28: the age is in a parent's age
    column, the label "Father" is in the frame, and the table has no entry
    for them. *)
Lemma last_name_line_mother_age_counterexample :
  28 ∈ map AGEXACTM three_births ∧
  "Father" ∈ map Last_name_choice (last_name_pie three_births).1 ∧
  ¬ ∃ u, (28, "Father", u) ∈ last_name_line (last_name_pie three_births).1.
Proof.
  split; [vm_compute; solve_elem_of|]. split; [vm_compute; solve_elem_of|].
  intros [u (Hage & _)%elem_of_last_name_line].
  assert (28 ∉ map (λ r : LabelledRecord, AGEXACTP r) (last_name_pie three_births).1)
    as Hno by compute_done.
  by apply Hno.
Qed.

Lemma last_name_pie_KeyError_witness :
  (∃ r, r ∈ unlisted_flag ∧ (¬ (INDNATM r = 1 ∨ INDNATM r = 2) ∨
                             ¬ (INDNATP r = 1 ∨ INDNATP r = 2))) ∧
  (last_name_pie unlisted_flag).2 = inl KeyError ∧
  (∀ r, r ∈ three_births → (INDNATM r = 1 ∨ INDNATM r = 2) ∧
                           (INDNATP r = 1 ∨ INDNATP r = 2)) ∧
  ∃ rows, (last_name_pie three_births).2 = inr rows.
Proof.
  assert (∃ r, r ∈ unlisted_flag ∧ (¬ (INDNATM r = 1 ∨ INDNATM r = 2) ∨
                                    ¬ (INDNATP r = 1 ∨ INDNATP r = 2))) as Hbad.
  { exists (birth (PyStr "13") 5 27 26 3 1 (Some 1) 0 0 0).
    split; [unfold unlisted_flag; solve_elem_of|]. right. simpl. lia. }
  assert (∀ r, r ∈ three_births → (INDNATM r = 1 ∨ INDNATM r = 2) ∧
                                  (INDNATP r = 1 ∨ INDNATP r = 2)) as Hok
    by (apply Forall_forall; compute_done).
  split; [exact Hbad|]. split; [|split; [exact Hok|]].
  - exact (proj2 (proj1 (last_name_pie_KeyError unlisted_flag)) Hbad).
  - exact (proj2 (proj2 (last_name_pie_KeyError three_births)) Hok).
Defined.

Lemma last_name_choice_default_and_total_witness :
  let r := {| record := birth (PyInt 1) 1 31 28 2 1 (Some 9) 0 0 0;
              Last_name_choice := "Father" |} in
  r ∈ (last_name_pie three_births).1 ∧
  (∀ code, ORIGINOM r = Some code → ¬ 1 ≤ code ≤ 5) ∧
  Last_name_choice r = "Father" ∧
  sumZ (map snd (groupby_count (last_name_pie three_births).1)) = 3 ∧
  ∀ rows, (last_name_pie three_births).2 = inr rows →
    sumZ (map Sunburst.Births rows) = 3.
Proof.
  intros r.
  assert (r ∈ (last_name_pie three_births).1) as Hin
    by (vm_compute; solve_elem_of).
  assert (∀ code, ORIGINOM r = Some code → ¬ 1 ≤ code ≤ 5) as Hcode
    by (intros code [= <-]; lia).
  destruct (last_name_choice_default_and_total three_births)
    as (_ & Hlabel & Hg & Hr).
  split; [exact Hin|]. split; [exact Hcode|].
  split; [exact (Hlabel r Hin Hcode)|]. split; [exact Hg | exact Hr].
Defined.

(** * Further properties of the module *)

(** ** Department codes *)

Lemma length_pad (s : string) : String.length ("0" +:+ s) = S (String.length s).
Proof. done. Qed.

(** X1. Two raw department codes are cleaned to the same code exactly when
    their string forms are equal or one is a single character and the other
    is that character after a "0": 1, "1" and "01" are one department. *)
Theorem clean_dep_same (a b : pyval) :
  clean_dep a = clean_dep b ↔
  str a = str b ∨
  (String.length (str a) = 1%nat ∧ str b = "0" +:+ str a) ∨
  (String.length (str b) = 1%nat ∧ str a = "0" +:+ str b).
Proof.
  unfold clean_dep.
  destruct (decide (String.length (str a) = 1%nat)) as [Ha|Ha],
           (decide (String.length (str b) = 1%nat)) as [Hb|Hb].
  - split.
    + intros Heq. left. cbn in Heq. by injection Heq.
    + intros [->|[[_ Hab]|[_ Hab]]]; [done| |].
      * rewrite Hab, length_pad in Hb. lia.
      * rewrite Hab, length_pad in Ha. lia.
  - split.
    + intros <-. right. left. done.
    + intros [Hab|[[_ ->]|[Hb' _]]]; [|done|done].
      rewrite Hab in Ha. done.
  - split.
    + intros ->. right. right. done.
    + intros [Hab|[[Ha' _]|[_ ->]]]; [|done|done].
      rewrite Hab in Ha. done.
  - split.
    + intros ->. by left.
    + intros [->|[[Ha' _]|[Hb' _]]]; done.
Qed.

(** X2. A cleaned code is never one character long, and cleaning it again
    returns it: the empty string and every longer string are kept, a single
    character gets its "0". *)
Theorem clean_dep_normal (dep : pyval) :
  String.length (clean_dep dep) ≠ 1%nat ∧
  clean_dep (PyStr (clean_dep dep)) = clean_dep dep ∧
  (str dep = "" → clean_dep dep = "").
Proof.
  assert (String.length (clean_dep dep) ≠ 1%nat) as Hlen.
  { unfold clean_dep.
    destruct (decide (String.length (str dep) = 1%nat)) as [Hl|Hl]; [|done].
    rewrite length_pad, Hl. done. }
  split; [done|]. split.
  - unfold clean_dep at 1. simpl. by rewrite decide_False.
  - intros Hs. unfold clean_dep. rewrite Hs. done.
Qed.

(** X3. Cleaning the frame keeps the rows, in their order, and every column
    but the department; the department column becomes the cleaned codes, as
    strings; and cleaning a cleaned frame changes nothing. *)
Theorem clean_and_read_data_normalises (raw_df : list BirthRecord) :
  length (clean_and_read_data raw_df) = length raw_df ∧
  (∀ d, map (set_DEPNAIS d) (clean_and_read_data raw_df) = map (set_DEPNAIS d) raw_df) ∧
  map DEPNAIS (clean_and_read_data raw_df)
  = map (λ r, PyStr (clean_dep (DEPNAIS r))) raw_df ∧
  clean_and_read_data (clean_and_read_data raw_df) = clean_and_read_data raw_df.
Proof.
  split; [|split; [|split]].
  - rewrite clean_and_read_data_rows. apply length_map.
  - intros d. rewrite clean_and_read_data_rows, map_map. done.
  - rewrite clean_and_read_data_rows, map_map. done.
  - rewrite (clean_and_read_data_rows (clean_and_read_data raw_df)).
    rewrite clean_and_read_data_rows, map_map. apply map_ext. intros r.
    unfold set_DEPNAIS. simpl. f_equal. f_equal.
    apply clean_dep_idempotent.
Qed.


(** ** The monthly table: failures, order of the records, totals *)

Lemma list_item_cases {A} (l : list A) (i : Z) :
  (- Z.of_nat (length l) ≤ i < Z.of_nat (length l) ∧ ∃ a, list_item l i = inr a) ∨
  (¬ (- Z.of_nat (length l) ≤ i < Z.of_nat (length l)) ∧
   list_item l i = inl IndexError).
Proof.
  unfold list_item.
  destruct (i <? 0) eqn:Hneg;
    [apply Z.ltb_lt in Hneg | apply Z.ltb_ge in Hneg].
  - destruct ((0 <=? i + Z.of_nat (length l)) && (i + Z.of_nat (length l) <? Z.of_nat (length l)))
      eqn:Hb.
    + apply andb_true_iff in Hb as [H1 H2].
      apply Z.leb_le in H1. apply Z.ltb_lt in H2.
      left. split; [lia|].
      destruct (lookup_lt_is_Some_2 l (Z.to_nat (i + Z.of_nat (length l)))) as [a ->];
        [lia | by eexists].
    + right. split; [|done]. apply andb_false_iff in Hb as [H1|H2].
      * apply Z.leb_gt in H1. lia.
      * apply Z.ltb_ge in H2. lia.
  - destruct ((0 <=? i) && (i <? Z.of_nat (length l))) eqn:Hb.
    + apply andb_true_iff in Hb as [H1 H2].
      apply Z.leb_le in H1. apply Z.ltb_lt in H2.
      left. split; [lia|].
      destruct (lookup_lt_is_Some_2 l (Z.to_nat i)) as [a ->];
        [lia | by eexists].
    + right. split; [|done]. apply andb_false_iff in Hb as [H1|H2].
      * apply Z.leb_gt in H1. lia.
      * apply Z.ltb_ge in H2. lia.
Qed.

Lemma month_name_cases (m : Z) :
  (-11 ≤ m ≤ 12 ∧ list_item months (m - 1) = inr (month_name m)) ∨
  (¬ (-11 ≤ m ≤ 12) ∧ list_item months (m - 1) = inl IndexError).
Proof.
  unfold month_name.
  destruct (list_item_cases months (m - 1)) as [[Hm [a Ha]]|[Hm Ha]];
    simpl in Hm.
  - left. split; [lia|]. by rewrite Ha.
  - right. split; [lia | done].
Qed.

Lemma monthrange_ndays_cases (year m : Z) :
  (1 ≤ m ≤ 12 ∧ ∃ d, monthrange_ndays year m = inr d) ∨
  (¬ (1 ≤ m ≤ 12) ∧ monthrange_ndays year m = inl IllegalMonthError).
Proof.
  unfold monthrange_ndays.
  destruct ((1 <=? m) && (m <=? 12)) eqn:Hb; simpl.
  - apply andb_true_iff in Hb as [H1 H2].
    apply Z.leb_le in H1, H2. left. split; [lia|].
    destruct (list_item_cases mdays m) as [[_ [d ->]]|[Hm _]]; simpl in *;
      [by eexists | lia].
  - right. split; [|done]. apply andb_false_iff in Hb as [H1|H2].
    + apply Z.leb_gt in H1. lia.
    + apply Z.leb_gt in H2. lia.
Qed.

Lemma int64_spec (n : Z) : int64 n = true ↔ - 2 ^ 63 ≤ n < 2 ^ 63.
Proof. unfold int64. by rewrite andb_true_iff, Z.leb_le, Z.ltb_lt. Qed.

Lemma column_is_int64_true (df : list BirthRecord) :
  column_is_int64 (map MNAIS df) = true →
  ∀ r, r ∈ df → - 2 ^ 63 ≤ MNAIS r < 2 ^ 63.
Proof.
  unfold column_is_int64. rewrite forallb_forall. intros Hall r Hr.
  apply int64_spec, Hall, list_elem_of_In. to_fmap. by apply list_elem_of_fmap_2.
Qed.

Lemma column_is_int64_false (df : list BirthRecord) :
  column_is_int64 (map MNAIS df) = false →
  ∃ r, r ∈ df ∧ ¬ (- 2 ^ 63 ≤ MNAIS r < 2 ^ 63).
Proof.
  unfold column_is_int64. induction df as [|r df IH]; simpl; [done|].
  destruct (int64 (MNAIS r)) eqn:Hr; simpl.
  - intros (r' & Hr' & Hbad)%IH. exists r'. split; [by right | done].
  - intros _. exists r. split; [by left|].
    rewrite <-int64_spec. by rewrite Hr.
Qed.

Lemma sort_values_nil {A} (key : A → Z) (rows : list A) :
  sort_values key rows = [] → rows = [].
Proof.
  intros Hnil. apply length_zero_iff_nil.
  by rewrite <-(sort_values_Permutation key rows), Hnil.
Qed.

(** Facts about the months of the records of a frame that cannot hold
    together. *)
Ltac month_conflict :=
  exfalso;
  repeat match goal with
  | H : _ ∧ _ |- _ => destruct H
  | H : ∃ _, _ |- _ => destruct H
  end;
  subst;
  repeat match goal with
  | H : _ ∈ [] |- _ => by inversion H
  | H : ∀ r, r ∈ ?df → @?P r, Hr : ?r0 ∈ ?df |- _ =>
      let T := eval cbn beta in (P r0) in
      lazymatch goal with
      | _ : T |- _ => fail
      | _ => assert T by exact (H r0 Hr)
      end
  end;
  first [done | lia].

(** The outcomes of [df_barplot]. *)
Lemma df_barplot_cases (df : list BirthRecord) :
  (∃ tbl, df_barplot df = inr tbl ∧ df ≠ [] ∧ ∀ r, r ∈ df → 1 ≤ MNAIS r ≤ 12) ∨
  (df_barplot df = inl ValueError ∧ df = []) ∨
  (df_barplot df = inl TypeError ∧
   ∃ r, r ∈ df ∧ ¬ (- 2 ^ 63 ≤ MNAIS r < 2 ^ 63)) ∨
  (df_barplot df = inl IndexError ∧
   (∀ r, r ∈ df → - 2 ^ 63 ≤ MNAIS r < 2 ^ 63) ∧
   ∃ r, r ∈ df ∧ ¬ (-11 ≤ MNAIS r ≤ 12)) ∨
  (df_barplot df = inl IllegalMonthError ∧
   (∀ r, r ∈ df → -11 ≤ MNAIS r ≤ 12) ∧ ∃ r, r ∈ df ∧ ¬ (1 ≤ MNAIS r ≤ 12)).
Proof.
  destruct (decide (df = [])) as [->|Hne]; [right; left; by split|].
  destruct (column_is_int64 (map MNAIS df)) eqn:Hint.
  2:{ right. right. left. split; [|by apply column_is_int64_false].
      unfold df_barplot, df_barplot_base. rewrite Hint.
      by destruct df. }
  pose proof (column_is_int64_true df Hint) as Hint'.
  destruct (df_barplot df) as [e|tbl] eqn:Hdf.
  2:{ left. exists tbl. split; [done|]. split; [done|].
      by apply (df_barplot_returns df tbl). }
  right. right. right. unfold df_barplot, df_barplot_base in Hdf.
  rewrite Hint in Hdf. unfold months_item in Hdf.
  destruct (comprehension _ (unique (map MNAIS df))) as [e1|rows] eqn:Hrows;
    simpl in Hdf.
  - injection Hdf as ->. left.
    apply comprehension_inl in Hrows as (m & Hm & Hfm).
    rewrite elem_of_unique in Hm. to_fmap.
    apply list_elem_of_fmap in Hm as (r & -> & Hr).
    destruct (month_name_cases (MNAIS r)) as [[_ Hok]|[Hbad Hko]];
      rewrite ?Hok, ?Hko in Hfm; simpl in Hfm; [done|].
    injection Hfm as <-. split; [done|]. split; [done|]. by exists r.
  - right. apply comprehension_inr in Hrows.
    assert (∀ r, r ∈ df → -11 ≤ MNAIS r ≤ 12) as Hall.
    { intros r Hr.
      assert (MNAIS r ∈ unique (map MNAIS df)) as Hin.
      { apply elem_of_unique. to_fmap. by apply list_elem_of_fmap_2. }
      apply list_elem_of_lookup in Hin as [i Hi].
      destruct (Forall2_lookup_l _ _ _ _ _ Hrows Hi) as (row & _ & Hrow).
      simpl in Hrow.
      destruct (month_name_cases (MNAIS r)) as [[Hok _]|[_ Hko]]; [done|].
      by rewrite Hko in Hrow. }
    destruct (assign_apply births_norm _) as [e2|norm] eqn:Hnorm;
      simpl in Hdf; [|done].
    injection Hdf as ->.
    apply assign_apply_inl in Hnorm as [[Hnil _]|[_ Hnorm]].
    { exfalso. apply Hne. apply sort_values_nil in Hnil. subst rows.
      apply Forall2_length in Hrows. simpl in Hrows.
      apply length_zero_iff_nil in Hrows.
      apply (proj1 (unique_nil _)) in Hrows. by apply map_eq_nil in Hrows. }
    apply comprehension_inl in Hnorm as (ser & Hser & Hfs).
    rewrite sort_values_Permutation in Hser.
    apply list_elem_of_lookup in Hser as [j Hj].
    destruct (Forall2_lookup_r _ _ _ _ _ Hrows Hj) as (m & Hm & Hrow).
    simpl in Hrow.
    destruct (list_item months (m - 1)) as [?|name]; simpl in Hrow; [done|].
    injection Hrow as <-. unfold births_norm in Hfs. simpl in Hfs.
    destruct (monthrange_ndays_cases 2019 m) as [[_ [d Hok]]|[Hbad Hko]];
      rewrite ?Hok, ?Hko in Hfs; simpl in Hfs; [done|].
    injection Hfs as <-. split; [done|]. split; [done|].
    apply list_elem_of_lookup_2 in Hm. rewrite elem_of_unique in Hm. to_fmap.
    apply list_elem_of_fmap in Hm as (r & -> & Hr). by exists r.
Qed.

(** X5. The outcome of building the monthly table, by the months of the
    records. Without any record the assignment of the normalised column
    raises [ValueError]. A month that does not fit [int64] makes the column
    something else than integers and [months[month - 1]] raise [TypeError].
    Otherwise [IndexError] is raised exactly when some month is outside
    -11..12 ([months[month - 1]] accepts the negative indices down to -12),
    and [IllegalMonthError] exactly when all the months are in -11..12 and
    some month is outside 1..12 ([monthrange] refuses it). [KeyError] is
    never raised. The table is returned exactly when there is a record and
    every month is in 1..12. *)
Theorem df_barplot_outcome (df : list BirthRecord) :
  (df_barplot df = inl ValueError ↔ df = []) ∧
  (df_barplot df = inl TypeError ↔
   ∃ r, r ∈ df ∧ ¬ (- 2 ^ 63 ≤ MNAIS r < 2 ^ 63)) ∧
  (df_barplot df = inl IndexError ↔
   (∀ r, r ∈ df → - 2 ^ 63 ≤ MNAIS r < 2 ^ 63) ∧
   ∃ r, r ∈ df ∧ ¬ (-11 ≤ MNAIS r ≤ 12)) ∧
  (df_barplot df = inl IllegalMonthError ↔
   (∀ r, r ∈ df → -11 ≤ MNAIS r ≤ 12) ∧ ∃ r, r ∈ df ∧ ¬ (1 ≤ MNAIS r ≤ 12)) ∧
  df_barplot df ≠ inl KeyError ∧
  ((∃ tbl, df_barplot df = inr tbl) ↔
   df ≠ [] ∧ ∀ r, r ∈ df → 1 ≤ MNAIS r ≤ 12).
Proof.
  destruct (df_barplot_cases df)
    as [(tbl & Htbl & Hne & Hok)|[(He & ->)|[(He & r & Hr & Hbad)|
        [(He & Hint & r & Hr & Hbad)|(He & Hall & r & Hr & Hbad)]]]];
    rewrite ?Htbl, ?He;
    (split; [|split; [|split; [|split; [|split]]]]);
    try done;
    (split;
     [first [done | by intros [? ?] | intros _; eauto]
     |first [done
            | intros _; by eexists
            | intros; month_conflict]]).
Qed.

(** The table that is built lists the rows of the distinct months, in the
    order of the months. *)
Lemma df_barplot_closed_form (df : list BirthRecord) (tbl : list Barplot.row) :
  df_barplot df = inr tbl →
  tbl = map (barplot_row df) (sorted (unique (map MNAIS df))).
Proof.
  intros (rows & norm & Hrows & Hnorm & _ & ->)%df_barplot_inv.
  set (g := λ m : Z, (m, month_name m, count_rows (λ r, MNAIS r = m) df)).
  assert (rows = g <$> unique (map MNAIS df)) as ->.
  { clear Hnorm. induction Hrows as [|m row ms rows' (name & Hname & ->) _ IH];
      [done|].
    rewrite fmap_cons, <-IH. f_equal. unfold g, month_name. by rewrite Hname. }
  assert (sort_values (λ row : Z * string * Z, row.1.1) (g <$> unique (map MNAIS df))
          = g <$> sorted (unique (map MNAIS df))) as Hbase.
  { apply (Sorted_unique_strong (by_key (λ row : Z * string * Z, row.1.1))).
    - intros x1 x2 Hx1 Hx2 H12 H21.
      rewrite sort_values_Permutation in Hx1.
      apply list_elem_of_fmap in Hx1 as (m1 & -> & _).
      apply list_elem_of_fmap in Hx2 as (m2 & -> & _).
      unfold by_key in *. simpl in *. f_equal. lia.
    - apply (Sorted_merge_sort (by_key _)).
    - apply (Sorted_fmap g Z.le); [done|]. apply (Sorted_merge_sort Z.le).
    - rewrite sort_values_Permutation. unfold sorted.
      by rewrite merge_sort_Permutation. }
  rewrite Hbase in Hnorm |- *. to_fmap.
  apply Forall2_fmap_l in Hnorm. clear Hbase Hrows.
  induction Hnorm as [|m n ms ns Hn _ IH]; [done|].
  rewrite !fmap_cons. simpl. rewrite <-IH. f_equal.
  unfold barplot_row. simpl in Hn. unfold g in Hn. by rewrite Hn.
Qed.

Lemma count_rows_Permutation {A} (P : A → Prop) `{∀ x, Decision (P x)}
    (l1 l2 : list A) :
  l1 ≡ₚ l2 → count_rows P l1 = count_rows P l2.
Proof. intros Hp. unfold count_rows. by rewrite Hp. Qed.

Lemma sorted_unique_Permutation (l1 l2 : list Z) :
  l1 ≡ₚ l2 → sorted (unique l1) = sorted (unique l2).
Proof.
  intros Hp. apply (Sorted_unique Z.le).
  - apply (Sorted_merge_sort Z.le).
  - apply (Sorted_merge_sort Z.le).
  - unfold sorted. rewrite !merge_sort_Permutation.
    apply NoDup_Permutation; [apply NoDup_unique..|].
    intros x. by rewrite !elem_of_unique, Hp.
Qed.

(** X6. The monthly table does not depend on the order of the records: two
    frames with the same records in different orders give the same table, or
    the same exception. *)
Theorem df_barplot_Permutation (df1 df2 : list BirthRecord) :
  df1 ≡ₚ df2 → df_barplot df1 = df_barplot df2.
Proof.
  intros Hp.
  assert (∀ r, r ∈ df2 ↔ r ∈ df1) as Hmem by (intros r; by rewrite Hp).
  assert (df2 = [] ↔ df1 = []) as Hnil.
  { split; intros ->; [|symmetry in Hp]; by apply Permutation_nil_r. }
  destruct (df_barplot_cases df1)
    as [(tbl1 & Htbl1 & Hne1 & Hok1)|[(He1 & Hnil1)|[(He1 & r1 & Hr1 & Hbad1)|
        [(He1 & Hint1 & r1 & Hr1 & Hbad1)|(He1 & Hall1 & r1 & Hr1 & Hbad1)]]]];
    (destruct (df_barplot_cases df2)
      as [(tbl2 & Htbl2 & Hne2 & Hok2)|[(He2 & Hnil2)|[(He2 & r2 & Hr2 & Hbad2)|
          [(He2 & Hint2 & r2 & Hr2 & Hbad2)|(He2 & Hall2 & r2 & Hr2 & Hbad2)]]]]);
    rewrite ?Htbl1, ?Htbl2, ?He1, ?He2; try reflexivity;
    try (rewrite ?Hnil in *; setoid_rewrite Hmem in Hr2 || idtac;
         repeat match goal with
         | H : ∀ r, r ∈ df2 → _ |- _ => setoid_rewrite Hmem in H
         | H : _ ∈ df2 |- _ => apply Hmem in H
         end;
         month_conflict).
  f_equal.
  rewrite (df_barplot_closed_form df1 tbl1 Htbl1).
  rewrite (df_barplot_closed_form df2 tbl2 Htbl2).
  rewrite (sorted_unique_Permutation (map MNAIS df1) (map MNAIS df2))
    by (to_fmap; by rewrite Hp).
  apply map_ext. intros m. unfold barplot_row.
  by rewrite (count_rows_Permutation _ df1 df2 Hp).
Qed.

(** X7. The absolute counts of the monthly table add up to the number of
    records: every record is counted in the row of its month, and in no
    other. *)
Theorem df_barplot_total_births (df : list BirthRecord) (tbl : list Barplot.row) :
  df_barplot df = inr tbl →
  sumZ (map Barplot.Births_abs tbl) = Z.of_nat (length df).
Proof.
  intros ->%df_barplot_closed_form. rewrite map_map. simpl.
  rewrite (sum_counts_NoDup MNAIS) by apply sorted_unique_spec.
  apply count_rows_all. intros r Hr. apply sorted_unique_spec.
  to_fmap. by apply list_elem_of_fmap_2.
Qed.

(** ** The normalised count against the absolute count *)

Lemma py_round_le (x : Q) (n : Z) : (x <= inject_Z n)%Q → py_round x ≤ n.
Proof.
  intros Hx. pose proof (py_round_nearest x) as Hr.
  apply Qabs_Qle_condition in Hr as [_ Hr].
  assert (inject_Z (py_round x) < inject_Z (n + 1))%Q as Hlt.
  { rewrite inject_Z_plus. change (inject_Z 1) with 1%Q. lra. }
  rewrite <-Zlt_Qlt in Hlt. lia.
Qed.

Lemma py_round_ge (x : Q) (n : Z) : (inject_Z n <= x)%Q → n ≤ py_round x.
Proof.
  intros Hx. pose proof (py_round_nearest x) as Hr.
  apply Qabs_Qle_condition in Hr as [Hr _].
  assert (inject_Z n < inject_Z (py_round x + 1))%Q as Hlt.
  { rewrite inject_Z_plus. change (inject_Z 1) with 1%Q. lra. }
  rewrite <-Zlt_Qlt in Hlt. lia.
Qed.

(** X8. In the monthly table the normalised count is never negative; it is
    the absolute count in the months of 30 days, at most the absolute count
    in the months of 31 days, and at least the absolute count in
    February. *)
Theorem births_norm_against_abs (df : list BirthRecord) (tbl : list Barplot.row)
    (row : Barplot.row) :
  df_barplot df = inr tbl → row ∈ tbl →
  0 ≤ Barplot.Births_norm row ∧
  (Barplot.Month_ind row ∈ [4; 6; 9; 11] →
     Barplot.Births_norm row = Barplot.Births_abs row) ∧
  (Barplot.Month_ind row ∈ [1; 3; 5; 7; 8; 10; 12] →
     Barplot.Births_norm row ≤ Barplot.Births_abs row) ∧
  (Barplot.Month_ind row = 2 →
     Barplot.Births_abs row ≤ Barplot.Births_norm row).
Proof.
  intros Htbl Hrow.
  destruct (births_norm_row df tbl row Htbl Hrow)
    as (ndays & Hdays & Habs & Hnorm & _).
  assert (0 ≤ Barplot.Births_abs row) as Hpos
    by (rewrite Habs; apply count_rows_nonneg).
  assert (0 <= inject_Z (Barplot.Births_abs row))%Q as HposQ
    by (by rewrite <-(Zle_Qle 0)).
  destruct (monthrange_ndays_2019 (Barplot.Month_ind row)) as (d & Hd & Hrange);
    [by eapply monthrange_ndays_inr|].
  assert (d = ndays) as -> by congruence.
  assert (0 < inject_Z ndays)%Q as HdQ by (rewrite <-(Zlt_Qlt 0); lia).
  rewrite Hnorm. split; [|split; [|split]].
  - apply py_round_ge. apply Qmult_le_0_compat; [|done].
    apply Qle_shift_div_l; [done|]. lra.
  - intros Hm.
    assert (ndays = 30) as ->.
    { repeat (apply elem_of_cons in Hm as [Hm|Hm];
              [rewrite Hm in Hdays; by injection Hdays|]).
      inversion Hm. }
    assert (inject_Z (Barplot.Births_abs row) / inject_Z 30 * 30
            == inject_Z (Barplot.Births_abs row))%Q as Heq by (by field).
    apply Z.le_antisymm; [apply py_round_le | apply py_round_ge];
      rewrite Heq; apply Qle_refl.
  - intros Hm.
    assert (ndays = 31) as ->.
    { repeat (apply elem_of_cons in Hm as [Hm|Hm];
              [rewrite Hm in Hdays; by injection Hdays|]).
      inversion Hm. }
    apply py_round_le.
    assert (inject_Z (Barplot.Births_abs row) / inject_Z 31 * 30
            == inject_Z (Barplot.Births_abs row) * (30 # 31))%Q as -> by (by field).
    lra.
  - intros Hm. rewrite Hm in Hdays. injection Hdays as <-.
    apply py_round_ge.
    assert (inject_Z (Barplot.Births_abs row) / inject_Z 28 * 30
            == inject_Z (Barplot.Births_abs row) * (30 # 28))%Q as -> by (by field).
    lra.
Qed.

(** ** The callbacks *)

Lemma update_map_cases (tbl : list Choropleth.row) (scale : string) :
  (scale = "Absolute" ∧
   update_map tbl scale
   = inr {| MapFigure.data_frame := tbl; MapFigure.locations := "Department";
            MapFigure.color := "Births (abs)" |}) ∨
  (scale = "Logarithmic" ∧
   update_map tbl scale
   = inr {| MapFigure.data_frame := tbl; MapFigure.locations := "Department";
            MapFigure.color := "Births (log)" |}) ∨
  (scale ≠ "Absolute" ∧ scale ≠ "Logarithmic" ∧ update_map tbl scale = inl KeyError).
Proof.
  unfold update_map, dict_item. simpl.
  destruct (decide ("Absolute" = scale)) as [<-|?]; [by left|].
  destruct (decide ("Logarithmic" = scale)) as [<-|?]; [right; by left|].
  right. right. done.
Qed.

(** X9. [update_map] returns for the scales "Absolute" and "Logarithmic"
    and raises [KeyError] for any other value; the names it passes on are
    names of columns of the table: the locations are the department codes,
    the colours the counts for "Absolute" and the logarithms for
    "Logarithmic", one per row. *)
Theorem update_map_outcome (tbl : list Choropleth.row) (scale : string) :
  match update_map tbl scale with
  | inr fig =>
      (scale = "Absolute" ∨ scale = "Logarithmic") ∧
      MapFigure.data_frame fig = tbl ∧
      choropleth_column tbl (MapFigure.locations fig)
      = Some (StrSeries (map Choropleth.Department tbl)) ∧
      choropleth_column tbl (MapFigure.color fig)
      = Some (if decide (scale = "Absolute")
              then IntSeries (map Choropleth.Births_abs tbl)
              else FloatSeries (map Choropleth.Births_log tbl))
  | inl e => e = KeyError ∧ scale ≠ "Absolute" ∧ scale ≠ "Logarithmic"
  end.
Proof.
  destruct (update_map_cases tbl scale) as [[-> ->]|[[-> ->]|(? & ? & ->)]];
    [| |done].
  - split; [by left|]. done.
  - split; [by right|]. done.
Qed.

Lemma update_barplot_cases (tbl : list Barplot.row) (bars data_type : string) :
  (∃ x y,
     (data_type = "Births" ∧ x = "Month (birth)" ∨
      data_type = "Procreations" ∧ x = "Month (procreation)") ∧
     (bars = "Absolute" ∧ y = "Births (abs)" ∨
      bars = "Normalized" ∧ y = "Births (norm)") ∧
     update_barplot tbl bars data_type
     = inr {| BarFigure.data_frame := tbl; BarFigure.x := x; BarFigure.y := y;
              BarFigure.title := data_type +:+ " per month" |}) ∨
  (¬ ((data_type = "Births" ∨ data_type = "Procreations") ∧
      (bars = "Absolute" ∨ bars = "Normalized")) ∧
   update_barplot tbl bars data_type = inl KeyError).
Proof.
  unfold update_barplot, dict_item. simpl.
  destruct (decide ("Births" = data_type)) as [<-|?];
    [|destruct (decide ("Procreations" = data_type)) as [<-|?]];
    simpl;
    (destruct (decide ("Absolute" = bars)) as [<-|?];
     [|destruct (decide ("Normalized" = bars)) as [<-|?]]); simpl;
    first [ left; eexists _, _; split; [|split; [|reflexivity]];
            [first [by left | by right] | first [by left | by right]]
          | right; split; [|done]; intros [[?|?] [?|?]]; congruence ].
Qed.

(** X10. [update_barplot] returns when the month axis is "Births" or
    "Procreations" and the bars are "Absolute" or "Normalized", and raises
    [KeyError] otherwise; the names it passes on are names of columns of
    the table: the month labels along x, the chosen counts along y; the
    title is the name of the month axis followed by " per month". *)
Theorem update_barplot_outcome (tbl : list Barplot.row) (bars data_type : string) :
  match update_barplot tbl bars data_type with
  | inr fig =>
      (data_type = "Births" ∨ data_type = "Procreations") ∧
      (bars = "Absolute" ∨ bars = "Normalized") ∧
      BarFigure.data_frame fig = tbl ∧
      BarFigure.title fig = data_type +:+ " per month" ∧
      barplot_column tbl (BarFigure.x fig)
      = Some (StrSeries (if decide (data_type = "Births")
                         then map Barplot.Month_birth tbl
                         else map Barplot.Month_procreation tbl)) ∧
      barplot_column tbl (BarFigure.y fig)
      = Some (IntSeries (if decide (bars = "Absolute")
                         then map Barplot.Births_abs tbl
                         else map Barplot.Births_norm tbl))
  | inl e =>
      e = KeyError ∧
      ¬ ((data_type = "Births" ∨ data_type = "Procreations") ∧
         (bars = "Absolute" ∨ bars = "Normalized"))
  end.
Proof.
  destruct (update_barplot_cases tbl bars data_type)
    as [(x & y & Hx & Hy & ->)|[Hbad ->]]; [|done].
  destruct Hx as [[-> ->]|[-> ->]], Hy as [[-> ->]|[-> ->]];
    (split; [first [by left | by right]|]);
    (split; [first [by left | by right]|]); done.
Qed.

Lemma calendar_month_cases (m : Z) :
  1 ≤ m ≤ 12 →
  m = 1 ∨ m = 2 ∨ m = 3 ∨ m = 4 ∨ m = 5 ∨ m = 6 ∨
  m = 7 ∨ m = 8 ∨ m = 9 ∨ m = 10 ∨ m = 11 ∨ m = 12.
Proof. lia. Qed.

(** Two months of the calendar have different names, and different
    procreation labels. *)
Lemma month_labels_inj (m1 m2 : Z) :
  1 ≤ m1 ≤ 12 → 1 ≤ m2 ≤ 12 →
  month_name m1 = month_name m2 ∨
  replace procreation (month_name m1) = replace procreation (month_name m2) →
  m1 = m2.
Proof.
  intros H1%calendar_month_cases H2%calendar_month_cases Heq.
  repeat (destruct H1 as [->|H1]); try subst m1;
    repeat (destruct H2 as [->|H2]); try subst m2;
    try reflexivity;
    destruct Heq as [Heq|Heq]; vm_compute in Heq; discriminate Heq.
Qed.

(** X11. The bars of the chart of a built table: whatever the two
    selections, the labels along x are pairwise different (no two months
    share a bar), there is one bar per distinct month of the data, and with
    the absolute counts the heights add up to the number of records. *)
Theorem update_barplot_bars (df : list BirthRecord) (tbl : list Barplot.row)
    (bars data_type : string) (fig : BarFigure.t) :
  df_barplot df = inr tbl →
  update_barplot tbl bars data_type = inr fig →
  ∃ labels heights,
    barplot_column (BarFigure.data_frame fig) (BarFigure.x fig)
    = Some (StrSeries labels) ∧
    barplot_column (BarFigure.data_frame fig) (BarFigure.y fig)
    = Some (IntSeries heights) ∧
    NoDup labels ∧
    length labels = length (unique (map MNAIS df)) ∧
    length heights = length (unique (map MNAIS df)) ∧
    (bars = "Absolute" → sumZ heights = Z.of_nat (length df)).
Proof.
  intros Htbl Hfig.
  pose proof (df_barplot_closed_form df tbl Htbl) as Hform.
  pose proof (df_barplot_returns df tbl Htbl) as Hok.
  destruct (sorted_unique_spec (map MNAIS df)) as (_ & Hnd & Hin).
  assert (length tbl = length (unique (map MNAIS df))) as Hlen.
  { rewrite Hform, length_map. unfold sorted. by rewrite merge_sort_Permutation. }
  assert (∀ f : Barplot.row → string,
            (∀ m1 m2, 1 ≤ m1 ≤ 12 → 1 ≤ m2 ≤ 12 →
                      f (barplot_row df m1) = f (barplot_row df m2) → m1 = m2) →
            NoDup (map f tbl)) as Hlabels.
  { intros f Hf. rewrite Hform, map_map. to_fmap.
    apply NoDup_fmap_2_strong; [|done].
    intros m1 m2 Hm1 Hm2. apply Hf.
    - apply Hin in Hm1. to_fmap.
      apply list_elem_of_fmap in Hm1 as (r & -> & Hr). by apply Hok.
    - apply Hin in Hm2. to_fmap.
      apply list_elem_of_fmap in Hm2 as (r & -> & Hr). by apply Hok. }
  destruct (update_barplot_cases tbl bars data_type)
    as [(x & y & Hx & Hy & Hfig')|[_ Hfig']]; [|congruence].
  rewrite Hfig' in Hfig. injection Hfig as <-. simpl.
  assert (∃ labels, barplot_column tbl x = Some (StrSeries labels) ∧
                    NoDup labels ∧ length labels = length tbl)
    as (labels & Hcx & Hndl & Hll).
  { destruct Hx as [[_ ->]|[_ ->]]; eexists; (split; [reflexivity|]);
      (split; [|by rewrite length_map]); apply Hlabels;
      intros m1 m2 Hm1 Hm2 Heq; simpl in Heq;
      apply month_labels_inj; auto. }
  assert (∃ heights, barplot_column tbl y = Some (IntSeries heights) ∧
                     length heights = length tbl ∧
                     (bars = "Absolute" → heights = map Barplot.Births_abs tbl))
    as (heights & Hcy & Hlh & Habs).
  { destruct Hy as [[-> ->]|[-> ->]]; eexists; (split; [reflexivity|]);
      (split; [by rewrite length_map|]); done. }
  exists labels, heights. rewrite Hcx, Hcy, Hll, Hlh, Hlen.
  repeat split; try done.
  intros Hb. rewrite (Habs Hb), Hform, map_map. simpl.
  rewrite (sum_counts_NoDup MNAIS) by done.
  apply count_rows_all. intros r Hr. apply Hin.
  to_fmap. by apply list_elem_of_fmap_2.
Qed.

(** ** The heat map of the parents' ages *)

#[global] Instance flip_Zle_total : Total (flip Z.le).
Proof. intros a b. unfold flip. lia. Qed.

Lemma sorted_reverse_unique_spec (xs : list Z) :
  StronglySorted (flip Z.lt) (sorted_reverse (unique xs)) ∧
  NoDup (sorted_reverse (unique xs)) ∧
  ∀ x, x ∈ sorted_reverse (unique xs) ↔ x ∈ xs.
Proof.
  assert (NoDup (sorted_reverse (unique xs))) as Hnd.
  { unfold sorted_reverse. rewrite merge_sort_Permutation. apply NoDup_unique. }
  split; [|split; [done|]].
  - pose proof (Sorted_merge_sort (flip Z.le) (unique xs)) as Hs.
    apply (Sorted_StronglySorted (flip Z.le)) in Hs.
    fold (sorted_reverse (unique xs)) in Hs.
    induction Hs as [|x l Hl IH Hx]; [constructor|].
    apply NoDup_cons in Hnd as [Hxl Hnd]. constructor; [by apply IH|].
    apply Forall_forall. intros y Hy.
    rewrite Forall_forall in Hx. specialize (Hx y Hy).
    assert (x ≠ y) by (intros ->; done). unfold flip in *. lia.
  - intros x. unfold sorted_reverse.
    by rewrite merge_sort_Permutation, elem_of_unique.
Qed.

Lemma dict_get_Some {K V} `{EqDecision K} (d : list (K * V)) (k : K) (v : V) :
  dict_get d k = Some v → (k, v) ∈ d.
Proof.
  induction d as [|[k' v'] d IH]; simpl; [done|].
  destruct (decide (k' = k)) as [->|?].
  - intros [= ->]. by left.
  - intros Hd. right. by apply IH.
Qed.

Lemma dict_get_None {K V} `{EqDecision K} (d : list (K * V)) (k : K) :
  dict_get d k = None ↔ k ∉ map fst d.
Proof.
  induction d as [|[k' v'] d IH]; simpl.
  - split; [intros _ Hk; inversion Hk | done].
  - to_fmap. rewrite not_elem_of_cons. destruct (decide (k' = k)) as [->|?].
    + split; [done | by intros [? _]].
    + rewrite IH. to_fmap. split; [by split | by intros [_ ?]].
Qed.

Lemma dict_get_NoDup {K V} `{EqDecision K} (d : list (K * V)) (k : K) (v : V) :
  NoDup (map fst d) → (k, v) ∈ d → dict_get d k = Some v.
Proof.
  induction d as [|[k' v'] d IH]; simpl; intros Hnd Hin; [inversion Hin|].
  apply NoDup_cons in Hnd as [Hk' Hnd].
  apply elem_of_cons in Hin as [[= -> ->]|Hin]; [by rewrite decide_True|].
  destruct (decide (k' = k)) as [->|?]; [|by apply IH].
  exfalso. apply Hk'. to_fmap. by apply (list_elem_of_fmap_2 fst _ (k, v)).
Qed.

(** One assignment changes one cell. *)
Lemma cell_set_cell (fr fr' : Heatmap.frame) (col idx value : Z) :
  set_cell fr col idx value = inr fr' →
  Heatmap.index fr' = Heatmap.index fr ∧
  Heatmap.columns fr' = Heatmap.columns fr ∧
  (∀ c, is_Some (Heatmap.data fr' !! c) ↔ is_Some (Heatmap.data fr !! c)) ∧
  ∀ c i, cell fr' c i
         = if decide ((col, idx) = (c, i)) then Some value else cell fr c i.
Proof.
  unfold set_cell. destruct (Heatmap.data fr !! col) as [ser|] eqn:Hcol; [|done].
  intros [= <-]. simpl. split; [done|]. split; [done|]. split.
  - intros c. destruct (decide (col = c)) as [<-|Hne].
    + rewrite lookup_insert_eq, Hcol. split; by eexists.
    + by rewrite lookup_insert_ne.
  - intros c i. unfold cell. simpl.
    destruct (decide (col = c)) as [<-|Hne].
    + rewrite lookup_insert_eq, Hcol. simpl.
      destruct (decide (idx = i)) as [<-|Hni].
      * rewrite lookup_insert_eq. by rewrite decide_True.
      * rewrite lookup_insert_ne by done. rewrite decide_False; [done|].
        by intros [= ?].
    + rewrite lookup_insert_ne by done. rewrite decide_False; [done|].
      by intros [= ?].
Qed.

(** The loop of assignments, for groups of pairwise different keys whose
    columns are columns of the frame. *)
Lemma for_each_set_cell (gs : list (Z * Z * Z)) (fr : Heatmap.frame) :
  NoDup (map fst gs) →
  (∀ g, g ∈ gs → is_Some (Heatmap.data fr !! g.1.1)) →
  ∃ fr',
    for_each (λ fr ser, set_cell fr ser.1.1 ser.1.2 ser.2) fr gs = inr fr' ∧
    Heatmap.index fr' = Heatmap.index fr ∧
    Heatmap.columns fr' = Heatmap.columns fr ∧
    ∀ c i, cell fr' c i = match dict_get gs (c, i) with
                          | Some v => Some v
                          | None => cell fr c i
                          end.
Proof.
  revert fr. induction gs as [|[[col idx] v] gs IH]; intros fr Hnd Hcols.
  - exists fr. done.
  - simpl in Hnd. apply NoDup_cons in Hnd as [Hk Hnd].
    destruct (Hcols (col, idx, v)) as [ser Hser]; [by left|]. simpl in Hser.
    destruct (set_cell fr col idx v) as [e|fr1] eqn:Hset.
    { unfold set_cell in Hset. by rewrite Hser in Hset. }
    destruct (cell_set_cell fr fr1 col idx v Hset) as (Hi1 & Hc1 & Hd1 & Hcell1).
    destruct (IH fr1 Hnd) as (fr' & Hfr' & Hi & Hc & Hcell).
    { intros g Hg. apply Hd1. apply Hcols. by right. }
    exists fr'. simpl. rewrite Hset. simpl.
    split; [done|]. split; [congruence|]. split; [congruence|].
    intros c i. rewrite Hcell, Hcell1.
    destruct (decide ((col, idx) = (c, i))) as [<-|?]; [|done].
    apply dict_get_None in Hk. by rewrite Hk.
Qed.

Lemma groupby_ages_eq (df : list BirthRecord) :
  groupby_ages df
  = map (λ k, (k, count_rows (λ r, age_key r = k) df))
        (merge_sort age_key_le (unique (map age_key df))).
Proof.
  unfold groupby_ages, count_rows. apply map_ext. intros k.
  by rewrite length_map.
Qed.

Lemma groupby_ages_keys (df : list BirthRecord) :
  NoDup (map fst (groupby_ages df)) ∧
  ∀ k, k ∈ map fst (groupby_ages df) ↔ k ∈ map age_key df.
Proof.
  rewrite groupby_ages_eq, map_map. simpl. rewrite map_id. split.
  - rewrite merge_sort_Permutation. apply NoDup_unique.
  - intros k. by rewrite merge_sort_Permutation, elem_of_unique.
Qed.

Lemma cell_zeros (index columns : list Z) (c i : Z) :
  cell (zeros index columns) c i
  = if decide (c ∈ columns ∧ i ∈ index) then Some 0 else None.
Proof.
  unfold cell, zeros. simpl. rewrite lookup_gset_to_gmap.
  destruct (decide (c ∈ columns)) as [Hc|Hc].
  - rewrite option_guard_True by (by apply elem_of_list_to_set). simpl.
    rewrite lookup_gset_to_gmap.
    destruct (decide (i ∈ index)) as [Hi|Hi].
    + rewrite option_guard_True by (by apply elem_of_list_to_set).
      by rewrite decide_True.
    + rewrite option_guard_False by (by rewrite elem_of_list_to_set).
      rewrite decide_False; [done | tauto].
  - rewrite option_guard_False by (by rewrite elem_of_list_to_set).
    rewrite decide_False; [done | tauto].
Qed.

(** The frame of the heat map: it is always built; its cells are the cells
    of the fathers' ages by the mothers' ages, each with the number of
    records of that pair of ages. *)
Lemma age_heatmap_spec (df : list BirthRecord) :
  ∃ fr,
    age_heatmap df = inr fr ∧
    Heatmap.index fr = sorted_reverse (unique (map AGEXACTM df)) ∧
    Heatmap.columns fr = sorted (unique (map AGEXACTP df)) ∧
    ∀ p m, cell fr p m
           = if decide (p ∈ map AGEXACTP df ∧ m ∈ map AGEXACTM df)
             then Some (count_rows (λ r, AGEXACTP r = p ∧ AGEXACTM r = m) df)
             else None.
Proof.
  destruct (groupby_ages_keys df) as [Hnd Hkeys].
  assert (∀ r, r ∈ df → age_key r ∈ map age_key df) as Hkey
    by (intros r Hr; to_fmap; by apply list_elem_of_fmap_2).
  destruct (for_each_set_cell (groupby_ages df)
              (zeros (sorted_reverse (unique (map AGEXACTM df)))
                     (sorted (unique (map AGEXACTP df)))) Hnd)
    as (fr & Hfr & Hi & Hc & Hcell).
  { intros g Hg. simpl. rewrite lookup_gset_to_gmap.
    rewrite option_guard_True; [by eexists|].
    apply elem_of_list_to_set, sorted_unique_spec.
    assert (g.1 ∈ map fst (groupby_ages df)) as Hk
      by (to_fmap; by apply list_elem_of_fmap_2).
    apply Hkeys in Hk. to_fmap.
    apply list_elem_of_fmap in Hk as (r & Hr & Hin).
    apply list_elem_of_fmap. exists r. split; [|done].
    unfold age_key in Hr. by rewrite Hr. }
  exists fr. split; [exact Hfr|]. split; [exact Hi|]. split; [exact Hc|].
  intros p m. rewrite Hcell, cell_zeros.
  assert (∀ r, age_key r = (p, m) ↔ AGEXACTP r = p ∧ AGEXACTM r = m) as Hpm.
  { intros r. unfold age_key. split; [by intros [= -> ->] | by intros [-> ->]]. }
  destruct (dict_get (groupby_ages df) (p, m)) as [v|] eqn:Hget.
  - apply dict_get_Some in Hget.
    assert ((p, m) ∈ map age_key df) as Hin.
    { apply Hkeys. to_fmap. by apply (list_elem_of_fmap_2 fst _ (p, m, v)). }
    rewrite groupby_ages_eq in Hget. to_fmap.
    apply list_elem_of_fmap in Hget as (k & [= <- ->] & _).
    apply list_elem_of_fmap in Hin as (r & Hr & Hin).
    symmetry in Hr. apply Hpm in Hr as [<- <-].
    rewrite decide_True by (split; by apply list_elem_of_fmap_2).
    f_equal. apply count_rows_ext. intros r' _. apply Hpm.
  - apply dict_get_None in Hget. rewrite Hkeys in Hget.
    assert (count_rows (λ r, AGEXACTP r = p ∧ AGEXACTM r = m) df = 0) as ->.
    { apply count_rows_zero. intros r Hr Hrpm. apply Hget.
      apply Hpm in Hrpm as <-. by apply Hkey. }
    destruct (decide (p ∈ map AGEXACTP df ∧ m ∈ map AGEXACTM df)) as [[Hp Hm]|Hno].
    + rewrite decide_True; [done|].
      split; [by apply sorted_unique_spec | by apply sorted_reverse_unique_spec].
    + rewrite decide_False; [done|]. intros [Hp Hm]. apply Hno.
      split; [by apply (sorted_unique_spec (map AGEXACTP df))
             | by apply (sorted_reverse_unique_spec (map AGEXACTM df))].
Qed.

(** X12. [age_heatmap] never raises: every assignment of the loop finds its
    column. The columns of its frame are the distinct ages of the fathers in
    increasing order, its rows the distinct ages of the mothers in decreasing
    order. *)
Theorem age_heatmap_axes (df : list BirthRecord) :
  ∃ fr,
    age_heatmap df = inr fr ∧
    StronglySorted Z.lt (Heatmap.columns fr) ∧
    (∀ p, p ∈ Heatmap.columns fr ↔ p ∈ map AGEXACTP df) ∧
    StronglySorted (flip Z.lt) (Heatmap.index fr) ∧
    (∀ m, m ∈ Heatmap.index fr ↔ m ∈ map AGEXACTM df).
Proof.
  destruct (age_heatmap_spec df) as (fr & Hfr & Hi & Hc & _).
  exists fr. rewrite Hi, Hc. split; [done|].
  destruct (sorted_unique_spec (map AGEXACTP df)) as (? & _ & ?).
  destruct (sorted_reverse_unique_spec (map AGEXACTM df)) as (? & _ & ?).
  done.
Qed.

(** X13. In the frame of the heat map, the cell of a father's age and a
    mother's age that both occur in the data holds the number of records
    with that pair of ages, 0 when no record has the pair; the frame has no
    other cell. *)
Theorem age_heatmap_cells (df : list BirthRecord) (fr : Heatmap.frame) (p m : Z) :
  age_heatmap df = inr fr →
  cell fr p m
  = if decide (p ∈ map AGEXACTP df ∧ m ∈ map AGEXACTM df)
    then Some (count_rows (λ r, AGEXACTP r = p ∧ AGEXACTM r = m) df)
    else None.
Proof.
  intros Hfr. destruct (age_heatmap_spec df) as (fr' & Hfr' & _ & _ & Hcell).
  assert (fr' = fr) as -> by congruence. apply Hcell.
Qed.

Lemma count_rows_filter {A} (P Q : A → Prop) `{∀ x, Decision (P x)}
    `{∀ x, Decision (Q x)} (l : list A) :
  count_rows P (filter Q l) = count_rows (λ x, P x ∧ Q x) l.
Proof.
  induction l as [|a l IH]; [done|].
  rewrite filter_cons, (count_rows_cons (λ x, P x ∧ Q x)).
  destruct (decide (Q a)).
  - rewrite count_rows_cons, IH.
    destruct (decide (P a)), (decide (P a ∧ Q a)); tauto.
  - rewrite IH. destruct (decide (P a ∧ Q a)); tauto.
Qed.

Lemma sumZ_app (l1 l2 : list Z) : sumZ (l1 ++ l2) = sumZ l1 + sumZ l2.
Proof. induction l1 as [|x l1 IH]; simpl; [done|]. rewrite IH. lia. Qed.

Lemma mapM_pointwise {A B} (f : A → option B) (g : A → B) (l : list A) :
  (∀ x, x ∈ l → f x = Some (g x)) → mapM f l = Some (map g l).
Proof.
  intros Hf. apply mapM_Some_2. to_fmap. apply Forall2_fmap_r, Forall_Forall2_diag.
  by apply Forall_forall.
Qed.

(** X14. The values of the heat map form a rectangle, one row per distinct
    age of the mothers and one entry per distinct age of the fathers, and
    they add up to the number of records. *)
Theorem age_heatmap_total (df : list BirthRecord) (fr : Heatmap.frame) :
  age_heatmap df = inr fr →
  ∃ z,
    values fr = Some z ∧
    length z = length (unique (map AGEXACTM df)) ∧
    Forall (λ row, length row = length (unique (map AGEXACTP df))) z ∧
    sumZ (concat z) = Z.of_nat (length df).
Proof.
  intros Hfr.
  destruct (age_heatmap_spec df) as (fr' & Hfr' & Hi & Hc & Hcell).
  assert (fr' = fr) as -> by congruence. clear Hfr'.
  destruct (sorted_unique_spec (map AGEXACTP df)) as (_ & Hndc & Hinc).
  destruct (sorted_reverse_unique_spec (map AGEXACTM df)) as (_ & Hndi & Hini).
  set (count := λ m p, count_rows (λ r, AGEXACTP r = p ∧ AGEXACTM r = m) df).
  exists (map (λ m, map (count m) (Heatmap.columns fr)) (Heatmap.index fr)).
  split; [|split; [|split]].
  - unfold values. apply mapM_pointwise. intros m Hm.
    apply mapM_pointwise. intros p Hp. rewrite Hcell.
    rewrite decide_True; [done|]. rewrite Hc in Hp. rewrite Hi in Hm.
    split; [by apply Hinc | by apply Hini].
  - rewrite length_map, Hi. unfold sorted_reverse.
    by rewrite merge_sort_Permutation.
  - apply Forall_forall. intros row Hrow. to_fmap.
    apply list_elem_of_fmap in Hrow as (m & -> & _).
    rewrite length_fmap, Hc. unfold sorted. by rewrite merge_sort_Permutation.
  - rewrite Hi, Hc.
    assert (∀ m, sumZ (map (count m) (sorted (unique (map AGEXACTP df))))
                 = count_rows (λ r, AGEXACTM r = m) df) as Hrow.
    { intros m. unfold count.
      rewrite (map_ext _ (λ p, count_rows (λ r, AGEXACTP r = p)
                                 (filter (λ r, AGEXACTM r = m) df)))
        by (intros p; symmetry; apply count_rows_filter).
      rewrite (sum_counts_NoDup AGEXACTP) by done.
      rewrite count_rows_filter. apply count_rows_ext. intros r Hr.
      split; [tauto|]. intros Hm. split; [|done]. apply Hinc.
      to_fmap. by apply list_elem_of_fmap_2. }
    assert (∀ ms, sumZ (concat (map (λ m, map (count m)
                                       (sorted (unique (map AGEXACTP df)))) ms))
                  = sumZ (map (λ m, count_rows (λ r, AGEXACTM r = m) df) ms))
      as Hconcat.
    { induction ms as [|m ms IH]; [done|].
      simpl. by rewrite sumZ_app, Hrow, IH. }
    rewrite Hconcat, (sum_counts_NoDup AGEXACTM) by done.
    apply count_rows_all. intros r Hr. apply Hini.
    to_fmap. by apply list_elem_of_fmap_2.
Qed.

(** ** The last-name labels, the groups and the sunburst *)

Lemma last_name_choice_in_labels (ser : BirthRecord) :
  last_name_choice ser
  ∈ ["Father"; "Mother"; "Father - Mother"; "Mother - Father"; "Other"].
Proof.
  unfold last_name_choice, dict_get_default, ind_to_origine_nom.
  destruct (ORIGINOM ser) as [code|]; simpl; [|solve_elem_of].
  repeat (destruct (decide _) as [<-|?]; simpl; [solve_elem_of|]).
  solve_elem_of.
Qed.

(** X15. The last-name label of a record is one of the five labels of the
    dict; it is "Mother", "Father - Mother", "Mother - Father" or "Other"
    exactly for the codes 2, 3, 4 and 5, and "Father" for every other code
    and for a missing code. *)
Theorem last_name_choice_labels (ser : BirthRecord) :
  last_name_choice ser
  ∈ ["Father"; "Mother"; "Father - Mother"; "Mother - Father"; "Other"] ∧
  (last_name_choice ser = "Mother" ↔ ORIGINOM ser = Some 2) ∧
  (last_name_choice ser = "Father - Mother" ↔ ORIGINOM ser = Some 3) ∧
  (last_name_choice ser = "Mother - Father" ↔ ORIGINOM ser = Some 4) ∧
  (last_name_choice ser = "Other" ↔ ORIGINOM ser = Some 5) ∧
  (last_name_choice ser = "Father" ↔
   ORIGINOM ser ∉ [Some 2; Some 3; Some 4; Some 5]).
Proof.
  assert (∀ (o : option Z) (l : list (option Z)),
            Forall (λ x, x ≠ o) l → o ∉ l) as Hnotin.
  { intros o l Hl Hin. rewrite Forall_forall in Hl. by apply (Hl o). }
  unfold last_name_choice, dict_get_default, ind_to_origine_nom.
  destruct (ORIGINOM ser) as [code|]; simpl.
  - repeat (destruct (decide _) as [<-|?]; simpl;
            [split; [solve_elem_of|];
             repeat split; try done;
             try (intros _; apply Hnotin; repeat constructor; done);
             intros Hin; exfalso; apply Hin; solve_elem_of|]).
    split; [solve_elem_of|].
    repeat split; try done; try (intros [= ?]; congruence).
    intros _. apply Hnotin. repeat constructor; intros [= ?]; congruence.
  - split; [solve_elem_of|]. repeat split; try done.
    intros _. apply Hnotin. repeat constructor; done.
Qed.

Lemma groupby_count_spec (df : list BirthRecord) :
  NoDup (map fst (groupby_count (last_name_pie df).1)) ∧
  (∀ k, k ∈ map fst (groupby_count (last_name_pie df).1) ↔
        ∃ r, r ∈ df ∧ k = (INDNATP r, INDNATM r, last_name_choice r)) ∧
  (∀ k n, (k, n) ∈ groupby_count (last_name_pie df).1 →
          1 ≤ n ∧
          n = count_rows
                (λ r, (INDNATP r, INDNATM r, last_name_choice r) = k) df) ∧
  (length (groupby_count (last_name_pie df).1) ≤ length df)%nat.
Proof.
  simpl. set (df' := add_last_name_choice df).
  assert (map key_of df'
          = map (λ r, (INDNATP r, INDNATM r, last_name_choice r)) df) as Hkeys
    by (unfold df', add_last_name_choice; by rewrite map_map).
  assert (map fst (groupby_count df') = merge_sort key_le (unique (map key_of df')))
    as Hfst by (rewrite groupby_count_eq, map_map; simpl; apply map_id).
  assert (∀ k, count_rows (λ r, key_of r = k) df'
               = count_rows (λ r, (INDNATP r, INDNATM r, last_name_choice r) = k) df)
    as Hcount.
  { intros k. unfold df', add_last_name_choice. to_fmap.
    by rewrite count_rows_fmap. }
  split; [|split; [|split]].
  - rewrite Hfst, merge_sort_Permutation. apply NoDup_unique.
  - intros k. rewrite Hfst, merge_sort_Permutation, elem_of_unique, Hkeys.
    to_fmap. rewrite list_elem_of_fmap.
    split; intros (r & Hk & Hr); exists r; done.
  - intros k n [Hk ->]%elem_of_groupby_count. rewrite Hcount. split; [|done].
    rewrite Hkeys in Hk. to_fmap. apply list_elem_of_fmap in Hk as (r & -> & Hr).
    destruct (decide (count_rows
                (λ r0, (INDNATP r0, INDNATM r0, last_name_choice r0)
                       = (INDNATP r, INDNATM r, last_name_choice r)) df = 0))
      as [Hz|Hnz].
    + exfalso. by apply (proj1 (count_rows_zero _ df) Hz r Hr).
    + pose proof (count_rows_nonneg
                    (λ r0, (INDNATP r0, INDNATM r0, last_name_choice r0)
                           = (INDNATP r, INDNATM r, last_name_choice r)) df).
      lia.
  - rewrite <-(length_map fst), Hfst, merge_sort_Permutation.
    transitivity (length (map key_of df')).
    + apply submseteq_length, NoDup_submseteq; [apply NoDup_unique|].
      intros k. by rewrite elem_of_unique.
    + unfold df', add_last_name_choice. by rewrite !length_map.
Qed.

(** X16. The groups of [last_name_pie]: no key is listed twice, a key is
    listed exactly when some record has it, each group counts the records
    of its key, which is at least one, and there are no more groups than
    records. *)
Theorem groupby_count_groups (df : list BirthRecord) :
  NoDup (map fst (groupby_count (last_name_pie df).1)) ∧
  (∀ k, k ∈ map fst (groupby_count (last_name_pie df).1) ↔
        ∃ r, r ∈ df ∧ k = (INDNATP r, INDNATM r, last_name_choice r)) ∧
  (∀ k n, (k, n) ∈ groupby_count (last_name_pie df).1 →
          1 ≤ n ∧
          n = count_rows
                (λ r, (INDNATP r, INDNATM r, last_name_choice r) = k) df) ∧
  (length (groupby_count (last_name_pie df).1) ≤ length df)%nat.
Proof.
  destruct (groupby_count_spec df) as (Hnd & Hkeys & Hgroups & Hlen).
  split; [exact Hnd|]. split; [exact Hkeys|]. split; [exact Hgroups | exact Hlen].
Qed.

Lemma sunburst_row_inr (ser : group_key * Z) (row : Sunburst.row) :
  sunburst_row ser = inr row →
  ∃ father mother,
    (ser.1.1.1 = 1 ∧ father = "French" ∨ ser.1.1.1 = 2 ∧ father = "Foreign") ∧
    (ser.1.1.2 = 1 ∧ mother = "French" ∨ ser.1.1.2 = 2 ∧ mother = "Foreign") ∧
    row = {| Sunburst.Births := ser.2;
             Sunburst.Parents_nationality := father +:+ "/" +:+ mother;
             Sunburst.Last_name_choice := ser.1.2 |}.
Proof.
  unfold sunburst_row, dict_item, ind_to_nat. simpl.
  destruct (decide (1 = ser.1.1.1)) as [H1|?];
    [|destruct (decide (2 = ser.1.1.1)) as [H1|?]]; simpl; try done;
    (destruct (decide (1 = ser.1.1.2)) as [H2|?];
     [|destruct (decide (2 = ser.1.1.2)) as [H2|?]]); simpl; try done;
    intros [= <-]; eexists _, _; (split; [|split; [|reflexivity]]);
    first [left; split; [done | reflexivity] | right; split; [done | reflexivity]].
Qed.

Lemma NoDup_Forall2_keys {A B K1 K2} (R : A → B → Prop) (k1 : A → K1) (k2 : B → K2)
    (l1 : list A) (l2 : list B) :
  (∀ a b a' b', R a b → R a' b' → k2 b = k2 b' → k1 a = k1 a') →
  Forall2 R l1 l2 → NoDup (map k1 l1) → NoDup (map k2 l2).
Proof.
  intros Hinj. induction 1 as [|a b l1 l2 Hab Hl IH]; simpl;
    [intros _; constructor|].
  intros [Ha Hnd]%NoDup_cons. apply NoDup_cons. split; [|by apply IH].
  intros Hb. apply Ha. to_fmap.
  apply list_elem_of_fmap in Hb as (b' & Hbb' & Hb').
  apply list_elem_of_lookup in Hb' as [i Hi].
  destruct (Forall2_lookup_r _ _ _ _ _ Hl Hi) as (a' & Ha' & Hab').
  apply list_elem_of_fmap. exists a'. split; [by eapply Hinj|].
  by eapply list_elem_of_lookup_2.
Qed.

(** The paths that a sunburst of nationalities and labels can have. *)
Lemma sunburst_paths_length (paths : list (string * string)) :
  NoDup paths →
  (∀ p, p ∈ paths →
     p.1 ∈ ["French/French"; "French/Foreign"; "Foreign/French"; "Foreign/Foreign"] ∧
     p.2 ∈ ["Father"; "Mother"; "Father - Mother"; "Mother - Father"; "Other"]) →
  (length paths ≤ 20)%nat.
Proof.
  intros Hnd Hin.
  change 20%nat with
    (length (list_prod
               ["French/French"; "French/Foreign"; "Foreign/French"; "Foreign/Foreign"]
               ["Father"; "Mother"; "Father - Mother"; "Mother - Father"; "Other"])).
  apply submseteq_length, NoDup_submseteq; [done|].
  intros [p1 p2] Hp. apply Hin in Hp as [H1 H2].
  apply list_elem_of_In, in_prod; by apply list_elem_of_In.
Qed.

(** X17. When [last_name_pie] returns, every row of the sunburst has a
    positive count, one of the four nationality pairs (the father's flag
    before the mother's) and one of the five labels; no two rows have the
    same pair and label, so the sunburst has at most 20 leaves. *)
Theorem sunburst_rows (df : list BirthRecord) (rows : list Sunburst.row) :
  (last_name_pie df).2 = inr rows →
  (∀ row, row ∈ rows →
     1 ≤ Sunburst.Births row ∧
     Sunburst.Parents_nationality row
     ∈ ["French/French"; "French/Foreign"; "Foreign/French"; "Foreign/Foreign"] ∧
     Sunburst.Last_name_choice row
     ∈ ["Father"; "Mother"; "Father - Mother"; "Mother - Father"; "Other"] ∧
     ∃ father mother,
       Sunburst.Parents_nationality row
       = dict_get_default ind_to_nat father "" +:+ "/" +:+
         dict_get_default ind_to_nat mother "" ∧
       Sunburst.Births row
       = count_rows (λ r, INDNATP r = father ∧ INDNATM r = mother ∧
                          last_name_choice r = Sunburst.Last_name_choice row) df) ∧
  NoDup (map (λ row, (Sunburst.Parents_nationality row,
                      Sunburst.Last_name_choice row)) rows) ∧
  (length rows ≤ 20)%nat.
Proof.
  simpl. intros Hrows%comprehension_inr.
  destruct (groupby_count_spec df) as (Hnd & Hkeys & Hgroups & _).
  simpl in Hnd, Hkeys, Hgroups.
  assert (∀ row, row ∈ rows →
            ∃ ser, ser ∈ groupby_count (add_last_name_choice df) ∧
                   sunburst_row ser = inr row) as Hser.
  { intros row [i Hi]%list_elem_of_lookup.
    destruct (Forall2_lookup_r _ _ _ _ _ Hrows Hi) as (ser & Hs & Hrow).
    exists ser. split; [by eapply list_elem_of_lookup_2 | done]. }
  assert (∀ row, row ∈ rows →
     1 ≤ Sunburst.Births row ∧
     Sunburst.Parents_nationality row
     ∈ ["French/French"; "French/Foreign"; "Foreign/French"; "Foreign/Foreign"] ∧
     Sunburst.Last_name_choice row
     ∈ ["Father"; "Mother"; "Father - Mother"; "Mother - Father"; "Other"] ∧
     ∃ father mother,
       Sunburst.Parents_nationality row
       = dict_get_default ind_to_nat father "" +:+ "/" +:+
         dict_get_default ind_to_nat mother "" ∧
       Sunburst.Births row
       = count_rows (λ r, INDNATP r = father ∧ INDNATM r = mother ∧
                          last_name_choice r = Sunburst.Last_name_choice row) df)
    as Hall.
  { intros row ([[[p m] label] n] & Hin & Hrow)%Hser.
    destruct (Hgroups _ _ Hin) as [Hpos Hn].
    assert ((p, m, label) ∈ map fst (groupby_count (add_last_name_choice df))) as Hk
      by (to_fmap; by apply (list_elem_of_fmap_2 fst _ (p, m, label, n))).
    apply Hkeys in Hk as (r & Hr & [= -> -> ->]).
    apply sunburst_row_inr in Hrow as (father & mother & Hf & Hm & ->). simpl in *.
    split; [done|]. split; [|split].
    - destruct Hf as [[_ ->]|[_ ->]], Hm as [[_ ->]|[_ ->]]; solve_elem_of.
    - apply last_name_choice_in_labels.
    - exists (INDNATP r), (INDNATM r). split.
      + destruct Hf as [[-> ->]|[-> ->]], Hm as [[-> ->]|[-> ->]]; reflexivity.
      + rewrite Hn. apply count_rows_ext. intros r' _.
        split; [by intros [= -> -> ->] | by intros (-> & -> & ->)]. }
  assert (NoDup (map (λ row, (Sunburst.Parents_nationality row,
                              Sunburst.Last_name_choice row)) rows)) as Hpaths.
  { refine (NoDup_Forall2_keys _ fst _ _ _ _ Hrows Hnd).
    intros ser row ser' row' Hrow Hrow' Heq.
    apply sunburst_row_inr in Hrow as (f & m & Hf & Hm & ->).
    apply sunburst_row_inr in Hrow' as (f' & m' & Hf' & Hm' & ->).
    destruct ser as [[[p q] l] n], ser' as [[[p' q'] l'] n'].
    simpl in *. injection Heq as Hnat ->.
    destruct Hf as [[-> ->]|[-> ->]], Hm as [[-> ->]|[-> ->]],
             Hf' as [[-> ->]|[-> ->]], Hm' as [[-> ->]|[-> ->]];
      first [reflexivity | vm_compute in Hnat; discriminate Hnat]. }
  split; [exact Hall|]. split; [exact Hpaths|].
  rewrite <-(length_map (λ row, (Sunburst.Parents_nationality row,
                                 Sunburst.Last_name_choice row))).
  apply sunburst_paths_length; [done|].
  intros path Hp. to_fmap. apply list_elem_of_fmap in Hp as (row & -> & Hrow).
  destruct (Hall row Hrow) as (_ & H1 & H2 & _). done.
Qed.

(** ** Shares and rates *)

Lemma elem_of_sorted_unique (xs : list Z) (x : Z) :
  x ∈ sorted (unique xs) ↔ x ∈ xs.
Proof. apply sorted_unique_spec. Qed.

(** X18. For every age of the fathers' column, the entries of the table
    split the records where either parent has that age among the last-name
    labels: each label present in the data has an entry, whose share is
    the count of the label in that subset divided by the size of the
    subset, times 100; the size is at least 1 and the counts of the labels
    add up to it. *)
Theorem last_name_line_shares (df : list BirthRecord) (age : Z) :
  age ∈ map AGEXACTP df →
  ∃ ns,
    Forall2 (λ name n,
               n = count_rows (λ r, Last_name_choice r = name)
                     (sub_df (last_name_pie df).1 age) ∧
               (age, name,
                np_scale
                  (np_true_divide n
                     (Z.of_nat (length (sub_df (last_name_pie df).1 age))))
                  100)
               ∈ last_name_line (last_name_pie df).1)
            (unique (map Last_name_choice (last_name_pie df).1)) ns ∧
    1 ≤ Z.of_nat (length (sub_df (last_name_pie df).1 age)) ∧
    sumZ ns = Z.of_nat (length (sub_df (last_name_pie df).1 age)).
Proof.
  simpl. set (df' := add_last_name_choice df). intros Hage.
  rewrite <-AGEXACTP_add_last_name_choice in Hage. fold df' in Hage.
  pose proof (sub_df_nonempty df' age Hage) as Hpos.
  set (c := λ name, count_rows (λ r, Last_name_choice r = name) (sub_df df' age)).
  exists (map c (unique (map Last_name_choice df'))).
  split; [|split; [lia|]].
  - to_fmap. apply Forall2_fmap_r, Forall_Forall2_diag, Forall_forall.
    intros name Hname. split; [done|]. apply elem_of_last_name_line.
    split; [done|]. split; [by rewrite elem_of_unique in Hname | done].
  - unfold c. rewrite (sum_counts_NoDup Last_name_choice) by apply NoDup_unique.
    apply count_rows_all. intros r Hr. rewrite elem_of_unique. to_fmap.
    apply list_elem_of_fmap_2.
    by apply list_elem_of_filter in Hr as [_ Hr].
Qed.

(** X19. In the recognition table every row is of an age of the fathers'
    column; the rate of a father's row is finite, between 0 and 100; the
    rate of a mother's row is [nan] exactly when no mother has that age,
    and finite, between 0 and 100, otherwise. No rate is infinite. *)
Theorem recognition_rates (df : list BirthRecord) (parent : string) (age : Z)
    (rate : float64 Q) :
  (parent, age, rate) ∈ recognition df →
  age ∈ map AGEXACTP df ∧
  (parent = "Mother" ∨ parent = "Father") ∧
  (rate = nan ↔ parent = "Mother" ∧ age ∉ map AGEXACTM df) ∧
  (rate ≠ nan → ∃ q, rate = fin q ∧ (0 <= q <= 100)%Q).
Proof.
  unfold recognition. intros (a & Ha & Hrow)%elem_of_flat_map.
  rewrite elem_of_sorted_unique in Ha.
  assert (∀ (f : BirthRecord → Z) (Q : BirthRecord → Prop) `{∀ r, Decision (Q r)},
            let num := count_rows (λ r, f r = a ∧ Q r) df in
            let den := count_rows (λ r, f r = a) df in
            ((a ∉ (map f df)) ∧ np_scale (np_true_divide num den) 100 = nan) ∨
            (a ∈ map f df ∧
             ∃ q, np_scale (np_true_divide num den) 100 = fin q ∧
                  (0 <= q <= 100)%Q)) as Hrate.
  { intros f Q HQ num den.
    destruct (decide (a ∈ map f df)) as [Hin|Hnot].
    - right. split; [done|]. eexists. apply np_rate_finite.
      + apply (count_rows_and_le (λ r, f r = a)).
      + to_fmap. apply list_elem_of_fmap in Hin as (r & Hr & Hin).
        destruct (decide (den = 0)) as [Hz|Hnz].
        * exfalso. by apply (proj1 (count_rows_zero _ df) Hz r Hin).
        * pose proof (count_rows_nonneg (λ r, f r = a) df). unfold den in *. lia.
    - left. split; [done|]. apply np_rate_zero_count.
      + apply (count_rows_and_le (λ r, f r = a)).
      + apply count_rows_zero. intros r Hr Hfr. apply Hnot.
        to_fmap. apply list_elem_of_fmap. by exists r. }
  apply elem_of_cons in Hrow as [[= -> -> ->]|Hrow].
  - split; [done|]. split; [by left|].
    destruct (Hrate AGEXACTM (λ r, ARECM r ≠ 0 ∨ AMAR r ≠ 0) _)
      as [[Hnot ->]|[Hin (q & -> & Hq)]].
    + split; [done|]. done.
    + split; [split; [done | by intros [_ ?]]|]. intros _. by exists q.
  - apply list_elem_of_singleton in Hrow as [= -> -> ->].
    split; [done|]. split; [by right|].
    destruct (Hrate AGEXACTP (λ r, ARECP r ≠ 0 ∨ AMAR r ≠ 0) _)
      as [[Hnot _]|[Hin (q & -> & Hq)]]; [done|].
    split; [split; [done | by intros [? _]]|]. intros _. by exists q.
Qed.

(** ** The module as a whole *)

(** A property of the columns other than the department holds of the rows
    of the cleaned frame when it holds of the rows that were read, and
    conversely. *)
Lemma clean_and_read_data_elem (raw_df : list BirthRecord) (r : BirthRecord) :
  r ∈ clean_and_read_data raw_df ↔
  ∃ r0, r0 ∈ raw_df ∧ r = set_DEPNAIS (PyStr (clean_dep (DEPNAIS r0))) r0.
Proof.
  rewrite clean_and_read_data_rows. to_fmap. rewrite list_elem_of_fmap.
  split; intros (r0 & H1 & H2); by exists r0.
Qed.

Lemma clean_and_read_data_Forall (raw_df : list BirthRecord) (P : BirthRecord → Prop) :
  (∀ d r, P (set_DEPNAIS d r) ↔ P r) →
  (∀ r, r ∈ clean_and_read_data raw_df → P r) ↔ (∀ r, r ∈ raw_df → P r).
Proof.
  intros HP. split.
  - intros H r Hr. apply (HP (PyStr (clean_dep (DEPNAIS r)))). apply H.
    apply clean_and_read_data_elem. by exists r.
  - intros H r (r0 & Hr0 & ->)%clean_and_read_data_elem. apply HP. by apply H.
Qed.

Lemma clean_and_read_data_Exists (raw_df : list BirthRecord) (P : BirthRecord → Prop) :
  (∀ d r, P (set_DEPNAIS d r) ↔ P r) →
  (∃ r, r ∈ clean_and_read_data raw_df ∧ P r) ↔ (∃ r, r ∈ raw_df ∧ P r).
Proof.
  intros HP. split.
  - intros (r & (r0 & Hr0 & ->)%clean_and_read_data_elem & Hr).
    exists r0. split; [done|]. by apply HP in Hr.
  - intros (r & Hr & HPr). exists (set_DEPNAIS (PyStr (clean_dep (DEPNAIS r))) r).
    split; [|by apply HP]. apply clean_and_read_data_elem. by exists r.
Qed.

Lemma clean_and_read_data_nil (raw_df : list BirthRecord) :
  clean_and_read_data raw_df = [] ↔ raw_df = [].
Proof.
  split; [|by intros ->]. unfold clean_and_read_data. apply map_eq_nil.
Qed.

(** The outcomes of loading the module. *)
Lemma dashboard_cases (raw_df : list BirthRecord) (gdf_index : list string) :
  ((∃ d, dashboard raw_df gdf_index = inr d) ∧
   raw_df ≠ [] ∧
   (∀ r, r ∈ raw_df → 1 ≤ MNAIS r ≤ 12) ∧
   (∀ r, r ∈ raw_df → (INDNATP r = 1 ∨ INDNATP r = 2) ∧
                      (INDNATM r = 1 ∨ INDNATM r = 2))) ∨
  (dashboard raw_df gdf_index = inl ValueError ∧ raw_df = []) ∨
  (dashboard raw_df gdf_index = inl TypeError ∧
   ∃ r, r ∈ raw_df ∧ ¬ (- 2 ^ 63 ≤ MNAIS r < 2 ^ 63)) ∨
  (dashboard raw_df gdf_index = inl IndexError ∧
   (∀ r, r ∈ raw_df → - 2 ^ 63 ≤ MNAIS r < 2 ^ 63) ∧
   ∃ r, r ∈ raw_df ∧ ¬ (-11 ≤ MNAIS r ≤ 12)) ∨
  (dashboard raw_df gdf_index = inl IllegalMonthError ∧
   (∀ r, r ∈ raw_df → -11 ≤ MNAIS r ≤ 12) ∧
   ∃ r, r ∈ raw_df ∧ ¬ (1 ≤ MNAIS r ≤ 12)) ∨
  (dashboard raw_df gdf_index = inl KeyError ∧
   (∀ r, r ∈ raw_df → 1 ≤ MNAIS r ≤ 12) ∧
   ∃ r, r ∈ raw_df ∧ ¬ ((INDNATP r = 1 ∨ INDNATP r = 2) ∧
                        (INDNATM r = 1 ∨ INDNATM r = 2))).
Proof.
  unfold dashboard. set (df := clean_and_read_data raw_df).
  pose proof (λ P H, proj1 (clean_and_read_data_Forall raw_df P H)) as Hall.
  pose proof (λ P H, proj1 (clean_and_read_data_Exists raw_df P H)) as Hex.
  pose proof (clean_and_read_data_nil raw_df) as Hnil.
  fold df in Hall, Hex, Hnil.
  destruct (df_barplot_cases df)
    as [(tbl & -> & Hne & Hok)|[(-> & Hempty)|[(-> & Hbad)|
        [(-> & Hint & Hbad)|(-> & Hrange & Hbad)]]]]; simpl.
  - pose proof (Hall (λ r, 1 ≤ MNAIS r ≤ 12) ltac:(done) Hok) as Hok'.
    destruct (age_heatmap_spec df) as (fr & -> & _). simpl.
    destruct (comprehension sunburst_row (groupby_count (add_last_name_choice df)))
      as [e|rows] eqn:Hpie; simpl.
    + do 5 right.
      destruct (last_name_pie_raises df e Hpie) as (-> & Hflag).
      split; [done|]. split; [done|].
      exact (Hex (λ r, ¬ ((INDNATP r = 1 ∨ INDNATP r = 2) ∧
                          (INDNATM r = 1 ∨ INDNATM r = 2))) ltac:(done) Hflag).
    + left. split; [by eexists|]. split; [by rewrite <-Hnil|]. split; [done|].
      apply (Hall (λ r, (INDNATP r = 1 ∨ INDNATP r = 2) ∧
                        (INDNATM r = 1 ∨ INDNATM r = 2)) ltac:(done)).
      intros r Hr.
      destruct (decide ((INDNATP r = 1 ∨ INDNATP r = 2) ∧
                        (INDNATM r = 1 ∨ INDNATM r = 2))) as [?|Hno]; [done|].
      pose proof (last_name_pie_bad_flag df r Hr Hno) as Hko.
      simpl in Hko. congruence.
  - right. left. split; [done|]. by apply Hnil.
  - do 2 right. left. split; [done|].
    exact (Hex (λ r, ¬ (- 2 ^ 63 ≤ MNAIS r < 2 ^ 63)) ltac:(done) Hbad).
  - do 3 right. left. split; [done|]. split.
    + exact (Hall (λ r, - 2 ^ 63 ≤ MNAIS r < 2 ^ 63) ltac:(done) Hint).
    + exact (Hex (λ r, ¬ (-11 ≤ MNAIS r ≤ 12)) ltac:(done) Hbad).
  - do 4 right. left. split; [done|]. split.
    + exact (Hall (λ r, -11 ≤ MNAIS r ≤ 12) ltac:(done) Hrange).
    + exact (Hex (λ r, ¬ (1 ≤ MNAIS r ≤ 12)) ltac:(done) Hbad).
Qed.

(** X20. Loading the module (the two tables, then the four figures of the
    layout, in the order of the file) succeeds exactly when there is a
    record, every month is in 1..12 and every nationality flag is 1 or 2.
    It fails with the exception of the monthly table whatever the flags:
    [ValueError] without any record, [TypeError] when a month does not fit
    [int64], else [IndexError] when a month is outside -11..12, else
    [IllegalMonthError] when a month is outside 1..12. It fails with
    [KeyError] exactly when the months are fine and some flag is not 1 or
    2. The heat map never makes it fail. *)
Theorem dashboard_outcome (raw_df : list BirthRecord) (gdf_index : list string) :
  ((∃ d, dashboard raw_df gdf_index = inr d) ↔
   raw_df ≠ [] ∧
   (∀ r, r ∈ raw_df → 1 ≤ MNAIS r ≤ 12) ∧
   (∀ r, r ∈ raw_df → (INDNATP r = 1 ∨ INDNATP r = 2) ∧
                      (INDNATM r = 1 ∨ INDNATM r = 2))) ∧
  (dashboard raw_df gdf_index = inl ValueError ↔ raw_df = []) ∧
  (dashboard raw_df gdf_index = inl TypeError ↔
   ∃ r, r ∈ raw_df ∧ ¬ (- 2 ^ 63 ≤ MNAIS r < 2 ^ 63)) ∧
  (dashboard raw_df gdf_index = inl IndexError ↔
   (∀ r, r ∈ raw_df → - 2 ^ 63 ≤ MNAIS r < 2 ^ 63) ∧
   ∃ r, r ∈ raw_df ∧ ¬ (-11 ≤ MNAIS r ≤ 12)) ∧
  (dashboard raw_df gdf_index = inl IllegalMonthError ↔
   (∀ r, r ∈ raw_df → -11 ≤ MNAIS r ≤ 12) ∧
   ∃ r, r ∈ raw_df ∧ ¬ (1 ≤ MNAIS r ≤ 12)) ∧
  (dashboard raw_df gdf_index = inl KeyError ↔
   (∀ r, r ∈ raw_df → 1 ≤ MNAIS r ≤ 12) ∧
   ∃ r, r ∈ raw_df ∧ ¬ ((INDNATP r = 1 ∨ INDNATP r = 2) ∧
                        (INDNATM r = 1 ∨ INDNATM r = 2))).
Proof.
  destruct (dashboard_cases raw_df gdf_index)
    as [([d Hd] & Hne & Hm & Hf)|[(Hd & ->)|[(Hd & r & Hr & Hbad)|
        [(Hd & Hint & r & Hr & Hbad)|[(Hd & Hrange & r & Hr & Hbad)|
         (Hd & Hm & r & Hr & Hbad)]]]]];
    rewrite Hd;
    (split; [|split; [|split; [|split; [|split]]]]);
    (split;
     [first [done | by intros [? ?] | intros _; eauto]
     |first [done
            | intros _; by eexists
            | intros; month_conflict]]).
Qed.

(** ** The order of the records *)

(** X21. The recognition table does not depend on the order of the
    records. *)
Theorem recognition_Permutation (df1 df2 : list BirthRecord) :
  df1 ≡ₚ df2 → recognition df1 = recognition df2.
Proof.
  intros Hp. unfold recognition.
  rewrite (sorted_unique_Permutation (map AGEXACTP df1) (map AGEXACTP df2))
    by (to_fmap; by rewrite Hp).
  apply flat_map_ext. intros age.
  by rewrite !(count_rows_Permutation _ df1 df2 Hp).
Qed.

#[global] Instance flip_Zle_antisymm : AntiSymm eq (flip Z.le).
Proof. intros a b. unfold flip. lia. Qed.

Lemma sorted_reverse_unique_Permutation (l1 l2 : list Z) :
  l1 ≡ₚ l2 → sorted_reverse (unique l1) = sorted_reverse (unique l2).
Proof.
  intros Hp. apply (Sorted_unique (flip Z.le)).
  - apply (Sorted_merge_sort (flip Z.le)).
  - apply (Sorted_merge_sort (flip Z.le)).
  - unfold sorted_reverse. rewrite !merge_sort_Permutation.
    apply NoDup_Permutation; [apply NoDup_unique..|].
    intros x. by rewrite !elem_of_unique, Hp.
Qed.

Lemma mapM_ext {A B} (f g : A → option B) (l : list A) :
  (∀ x, f x = g x) → mapM f l = mapM g l.
Proof.
  intros Hfg. induction l as [|x l IH]; [done|].
  cbn. by rewrite Hfg, IH.
Qed.

(** X22. The heat map does not depend on the order of the records: the
    same labels along both axes, in the same order, and the same values. *)
Theorem age_heatmap_Permutation (df1 df2 : list BirthRecord)
    (fr1 fr2 : Heatmap.frame) :
  df1 ≡ₚ df2 →
  age_heatmap df1 = inr fr1 → age_heatmap df2 = inr fr2 →
  Heatmap.index fr1 = Heatmap.index fr2 ∧
  Heatmap.columns fr1 = Heatmap.columns fr2 ∧
  values fr1 = values fr2.
Proof.
  intros Hp H1 H2.
  destruct (age_heatmap_spec df1) as (fr1' & H1' & Hi1 & Hc1 & Hcell1).
  destruct (age_heatmap_spec df2) as (fr2' & H2' & Hi2 & Hc2 & Hcell2).
  assert (fr1' = fr1) as -> by congruence.
  assert (fr2' = fr2) as -> by congruence.
  assert (Heatmap.index fr1 = Heatmap.index fr2) as Hi.
  { rewrite Hi1, Hi2. apply sorted_reverse_unique_Permutation.
    to_fmap. by rewrite Hp. }
  assert (Heatmap.columns fr1 = Heatmap.columns fr2) as Hc.
  { rewrite Hc1, Hc2. apply sorted_unique_Permutation. to_fmap. by rewrite Hp. }
  split; [done|]. split; [done|].
  assert (∀ p m, cell fr1 p m = cell fr2 p m) as Hcell.
  { intros p m. rewrite Hcell1, Hcell2.
    rewrite (count_rows_Permutation _ df1 df2 Hp).
    destruct (decide (p ∈ map AGEXACTP df1 ∧ m ∈ map AGEXACTM df1)) as [Hin|Hno];
      [rewrite decide_True | rewrite decide_False]; try done;
      to_fmap; by rewrite <-Hp. }
  unfold values. rewrite Hi, Hc.
  apply mapM_ext. intros m. apply mapM_ext. intros p. apply Hcell.
Qed.

(** ** The extreme recognition rates *)

Lemma np_rate_extremes (num den : Z) :
  0 < den →
  ((inject_Z num / inject_Z den * 100 == 100)%Q ↔ num = den) ∧
  ((inject_Z num / inject_Z den * 100 == 0)%Q ↔ num = 0).
Proof.
  intros Hden.
  assert (¬ inject_Z den == 0)%Q as HdQ.
  { intros Heq. unfold Qeq in Heq. simpl in Heq. lia. }
  pose proof (Qmult_div_r (inject_Z num) (inject_Z den) HdQ) as Hmul.
  split; split.
  - intros Hq.
    assert (inject_Z num / inject_Z den == 1)%Q as Hx by lra.
    rewrite Hx in Hmul. apply inject_Z_injective. lra.
  - intros ->. by field.
  - intros Hq.
    assert (inject_Z num / inject_Z den == 0)%Q as Hx by lra.
    rewrite Hx in Hmul. apply inject_Z_injective.
    change (inject_Z 0) with 0%Q. lra.
  - intros ->. by field.
Qed.

Lemma count_rows_and_eq {A} (P Q : A → Prop) `{∀ x, Decision (P x)}
    `{∀ x, Decision (Q x)} (l : list A) :
  count_rows (λ x, P x ∧ Q x) l = count_rows P l ↔ ∀ x, x ∈ l → P x → Q x.
Proof.
  induction l as [|a l IH]; [split; [intros _ x Hx; inversion Hx | done]|].
  rewrite (count_rows_cons (λ x, P x ∧ Q x)), (count_rows_cons P).
  pose proof (count_rows_and_le P Q l) as Hle.
  split.
  - intros Heq x Hx HP. apply elem_of_cons in Hx as [->|Hx].
    + destruct (decide (P a ∧ Q a)), (decide (P a)); try tauto; lia.
    + apply IH; [|done..].
      destruct (decide (P a ∧ Q a)), (decide (P a)); try tauto; lia.
  - intros Hall.
    assert (count_rows (λ x, P x ∧ Q x) l = count_rows P l) as ->.
    { apply IH. intros x Hx. apply Hall. by right. }
    pose proof (Hall a (list_elem_of_here a l)).
    destruct (decide (P a ∧ Q a)), (decide (P a)); tauto.
Qed.

(** X23. In a row of the recognition table whose parent has that age in
    some record, the rate is 100 exactly when every record where the parent
    has that age carries a recognition year of that parent or a marriage
    year other than 0, and 0 exactly when none does. *)
Theorem recognition_extremes (df : list BirthRecord) (parent : string) (age : Z)
    (rate : float64 Q) :
  (parent, age, rate) ∈ recognition df →
  age ∈ map (parent_age parent) df →
  ∃ q,
    rate = fin q ∧
    ((q == 100)%Q ↔
     ∀ r, r ∈ df → parent_age parent r = age → recognised parent r) ∧
    ((q == 0)%Q ↔
     ∀ r, r ∈ df → parent_age parent r = age → ¬ recognised parent r).
Proof.
  intros Hrow Hage.
  assert (rate = np_scale
                   (np_true_divide
                      (count_rows (λ r, parent_age parent r = age ∧
                                        recognised parent r) df)
                      (count_rows (λ r, parent_age parent r = age) df))
                   100) as ->.
  { unfold recognition in Hrow.
    apply elem_of_flat_map in Hrow as (a & _ & Hrow).
    apply elem_of_cons in Hrow as [[= -> -> ->]|Hrow]; [done|].
    by apply list_elem_of_singleton in Hrow as [= -> -> ->]. }
  set (num := count_rows (λ r, parent_age parent r = age ∧ recognised parent r) df).
  set (den := count_rows (λ r, parent_age parent r = age) df).
  assert (0 ≤ num ≤ den) as Hnum
    by apply (count_rows_and_le (λ r, parent_age parent r = age)).
  assert (0 < den) as Hden.
  { to_fmap. apply list_elem_of_fmap in Hage as (r & Hr & Hin).
    destruct (decide (den = 0)) as [Hz|Hnz]; [|lia].
    exfalso. by apply (proj1 (count_rows_zero _ df) Hz r Hin). }
  destruct (np_rate_finite num den Hnum Hden) as [-> _].
  destruct (np_rate_extremes num den Hden) as [H100 H0].
  eexists. split; [reflexivity|]. split.
  - rewrite H100. apply count_rows_and_eq.
  - rewrite H0. unfold num. rewrite count_rows_zero.
    split; intros H r Hr; [intros Hp Hq | intros [Hp Hq]]; by apply (H r Hr).
Qed.

(** * The further properties on the sample frames *)


Lemma df_barplot_Permutation_witness :
  winter_births ≡ₚ reverse winter_births ∧
  df_barplot winter_births = df_barplot (reverse winter_births).
Proof.
  assert (winter_births ≡ₚ reverse winter_births) as Hp
    by (symmetry; apply reverse_Permutation).
  split; [exact Hp|].
  exact (df_barplot_Permutation winter_births (reverse winter_births) Hp).
Defined.

Lemma df_barplot_total_births_witness :
  df_barplot winter_births = inr winter_table ∧
  sumZ (map Barplot.Births_abs winter_table) = 8.
Proof.
  assert (df_barplot winter_births = inr winter_table) as Htbl by reflexivity.
  split; [exact Htbl|].
  exact (df_barplot_total_births winter_births winter_table Htbl).
Defined.

Lemma births_norm_against_abs_witness :
  df_barplot winter_births = inr winter_table ∧
  barplot_row winter_births 2 ∈ winter_table ∧
  Barplot.Month_ind (barplot_row winter_births 2) = 2 ∧
  Barplot.Births_abs (barplot_row winter_births 2)
  ≤ Barplot.Births_norm (barplot_row winter_births 2).
Proof.
  assert (df_barplot winter_births = inr winter_table) as Htbl by reflexivity.
  assert (barplot_row winter_births 2 ∈ winter_table) as Hrow
    by (unfold winter_table; solve_elem_of).
  assert (Barplot.Month_ind (barplot_row winter_births 2) = 2) as Hfeb
    by reflexivity.
  split; [exact Htbl|]. split; [exact Hrow|]. split; [exact Hfeb|].
  exact (proj2 (proj2 (proj2 (births_norm_against_abs winter_births winter_table
                                (barplot_row winter_births 2) Htbl Hrow))) Hfeb).
Defined.

Lemma update_barplot_bars_witness :
  df_barplot winter_births = inr winter_table ∧
  update_barplot winter_table "Absolute" "Procreations"
  = inr {| BarFigure.data_frame := winter_table;
           BarFigure.x := "Month (procreation)";
           BarFigure.y := "Births (abs)";
           BarFigure.title := "Procreations per month" |} ∧
  ∃ labels heights,
    barplot_column winter_table "Month (procreation)" = Some (StrSeries labels) ∧
    barplot_column winter_table "Births (abs)" = Some (IntSeries heights) ∧
    NoDup labels ∧
    sumZ heights = 8.
Proof.
  assert (df_barplot winter_births = inr winter_table) as Htbl by reflexivity.
  assert (update_barplot winter_table "Absolute" "Procreations"
          = inr {| BarFigure.data_frame := winter_table;
                   BarFigure.x := "Month (procreation)";
                   BarFigure.y := "Births (abs)";
                   BarFigure.title := "Procreations per month" |}) as Hfig
    by reflexivity.
  split; [exact Htbl|]. split; [exact Hfig|].
  destruct (update_barplot_bars winter_births winter_table "Absolute" "Procreations"
              _ Htbl Hfig) as (labels & heights & Hx & Hy & Hnd & _ & _ & Hsum).
  exists labels, heights.
  split; [exact Hx|]. split; [exact Hy|]. split; [exact Hnd|].
  exact (Hsum eq_refl).
Defined.

Lemma age_heatmap_cells_witness :
  age_heatmap three_births = inr (heatmap_of three_births) ∧
  cell (heatmap_of three_births) 30 28 = Some 1 ∧
  cell (heatmap_of three_births) 31 29 = Some 0 ∧
  cell (heatmap_of three_births) 30 30 = None.
Proof.
  assert (age_heatmap three_births = inr (heatmap_of three_births)) as Hfr
    by (vm_compute; reflexivity).
  split; [exact Hfr|].
  rewrite !(λ p m, age_heatmap_cells three_births (heatmap_of three_births) p m Hfr).
  repeat split; reflexivity.
Defined.

Lemma age_heatmap_total_witness :
  age_heatmap three_births = inr (heatmap_of three_births) ∧
  ∃ z, values (heatmap_of three_births) = Some z ∧
       sumZ (concat z) = 3.
Proof.
  assert (age_heatmap three_births = inr (heatmap_of three_births)) as Hfr
    by (vm_compute; reflexivity).
  split; [exact Hfr|].
  destruct (age_heatmap_total three_births (heatmap_of three_births) Hfr)
    as (z & Hz & _ & _ & Hsum).
  exists z. split; [exact Hz | exact Hsum].
Defined.

Lemma sunburst_rows_witness :
  (last_name_pie three_births).2 = inr three_births_pie ∧
  NoDup (map (λ row, (Sunburst.Parents_nationality row,
                      Sunburst.Last_name_choice row)) three_births_pie) ∧
  (length three_births_pie ≤ 20)%nat.
Proof.
  assert ((last_name_pie three_births).2 = inr three_births_pie) as Hrows
    by reflexivity.
  split; [exact Hrows|].
  exact (proj2 (sunburst_rows three_births three_births_pie Hrows)).
Defined.

(** Among the seven records of the fathers of 33, none has the label
    "Mother" and seven have "Father". *)
Lemma last_name_line_shares_witness :
  33 ∈ map AGEXACTP winter_births ∧
  ∃ ns,
    Forall2 (λ name n,
               n = count_rows (λ r, Last_name_choice r = name)
                     (sub_df (last_name_pie winter_births).1 33) ∧
               (33, name,
                np_scale
                  (np_true_divide n
                     (Z.of_nat (length (sub_df (last_name_pie winter_births).1 33))))
                  100)
               ∈ last_name_line (last_name_pie winter_births).1)
            (unique (map Last_name_choice (last_name_pie winter_births).1)) ns ∧
    1 ≤ Z.of_nat (length (sub_df (last_name_pie winter_births).1 33)) ∧
    sumZ ns = Z.of_nat (length (sub_df (last_name_pie winter_births).1 33)).
Proof.
  assert (33 ∈ map AGEXACTP winter_births) as Hage by (vm_compute; solve_elem_of).
  split; [exact Hage|].
  exact (last_name_line_shares winter_births 33 Hage).
Defined.

Lemma recognition_rates_witness :
  ("Mother", 30, nan) ∈ recognition three_births ∧
  30 ∈ map AGEXACTP three_births ∧
  30 ∉ map AGEXACTM three_births.
Proof.
  assert (("Mother", 30, nan) ∈ recognition three_births) as Hrow
    by (vm_compute; solve_elem_of).
  destruct (recognition_rates three_births "Mother" 30 nan Hrow)
    as (Hage & _ & Hnan & _).
  split; [exact Hrow|]. split; [exact Hage|].
  exact (proj2 (proj1 Hnan eq_refl)).
Defined.

Lemma recognition_Permutation_witness :
  three_births ≡ₚ reverse three_births ∧
  recognition three_births = recognition (reverse three_births).
Proof.
  assert (three_births ≡ₚ reverse three_births) as Hp
    by (symmetry; apply reverse_Permutation).
  split; [exact Hp|].
  exact (recognition_Permutation three_births (reverse three_births) Hp).
Defined.

Lemma age_heatmap_Permutation_witness :
  three_births ≡ₚ reverse three_births ∧
  age_heatmap three_births = inr (heatmap_of three_births) ∧
  age_heatmap (reverse three_births) = inr (heatmap_of (reverse three_births)) ∧
  values (heatmap_of three_births) = values (heatmap_of (reverse three_births)).
Proof.
  assert (three_births ≡ₚ reverse three_births) as Hp
    by (symmetry; apply reverse_Permutation).
  assert (age_heatmap three_births = inr (heatmap_of three_births)) as H1
    by (vm_compute; reflexivity).
  assert (age_heatmap (reverse three_births)
          = inr (heatmap_of (reverse three_births))) as H2
    by (vm_compute; reflexivity).
  split; [exact Hp|]. split; [exact H1|]. split; [exact H2|].
  exact (proj2 (proj2 (age_heatmap_Permutation three_births (reverse three_births)
                         _ _ Hp H1 H2))).
Defined.

Lemma recognition_extremes_witness :
  ("Father", 31, fin 0) ∈ recognition three_births ∧
  31 ∈ map (parent_age "Father") three_births ∧
  ∃ q, fin 0 = fin q ∧
       ((q == 0)%Q ↔
        ∀ r, r ∈ three_births → parent_age "Father" r = 31 →
             ¬ recognised "Father" r).
Proof.
  assert (("Father", 31, fin 0) ∈ recognition three_births) as Hrow
    by (vm_compute; solve_elem_of).
  assert (31 ∈ map (parent_age "Father") three_births) as Hage
    by (vm_compute; solve_elem_of).
  split; [exact Hrow|]. split; [exact Hage|].
  destruct (recognition_extremes three_births "Father" 31 (fin 0) Hrow Hage)
    as (q & Hq & _ & H0).
  exists q. split; [exact Hq | exact H0].
Defined.
